(** * The endpoint translator of the destination service

    A shallow embedding of
    [controller/api/destination/endpoint_translator.go]: the translator that
    folds the watcher's Add / Remove / NoEndpoints events into the set of
    known endpoints, filters that set by the topological preference of the
    service, diffs the filtered view against the view last handed to the
    client and sends the difference on the stream.

    Go maps are references.  The address maps of the translator are therefore
    kept in a store, and an [AddressSet] holds the location of its map: the
    wildcard branch of [filterAddresses] returns [et.availableEndpoints]
    itself, so that [filteredSnapshot] and [availableEndpoints] can come to
    share one map, and the model keeps that sharing. *)

From stdpp Require Import base option list gmap strings fin_maps fin_sets.


(** ** Data model *)

(** [watcher.ID]: a namespace-qualified name, used as the key of the
    address maps. *)
Definition ID : Type := string * string.

(** The fields of [corev1.Pod] the translator and the [k8s] helpers read. *)
Record Pod := mkPod {
  PodNamespace : string;
  PodServiceAccountName : string;
  PodLabels : gmap string string;
  PodAnnotations : gmap string string;
}.

(** [watcher.Address].  [Port] is a [uint32]; [Pod] is a pointer, [None]
    when nil. *)
Record Address := mkAddress {
  IP : string;
  Port : N;
  AddrPod : option Pod;
  OwnerName : string;
  OwnerKind : string;
  Identity : string;
  AuthorityOverride : string;
  TopologyLabels : gmap string string;
}.

(** A location of the store of address maps. *)
Abbreviation loc := nat (only parsing).

(** [watcher.AddressSet].  [Addresses] is a Go map, hence a reference: the
    record holds its location.  [Labels] is a map as well, but no code of
    the translator writes to a label map, so it is kept as a value. *)
Record AddressSet := mkAddressSet {
  Addresses : loc;
  Labels : gmap string string;
  TopologicalPref : list string;
}.

(** The store of all [map[watcher.ID]watcher.Address] values allocated so
    far; a location is an index into it. *)
Abbreviation store := (list (gmap ID Address)) (only parsing).

(** Reading the map at a location (a location that was never allocated
    reads as the empty map; well-formed states hold no such location). *)
Definition deref (h : store) (l : loc) : gmap ID Address :=
  default ∅ (h !! l).

(** [make(map[watcher.ID]watcher.Address)] followed by writes that only the
    allocating function can observe: the finished map is placed at a fresh
    location. *)
Definition alloc (m : gmap ID Address) (h : store) : loc * store :=
  (length h, h ++ [m]).

(** Writing through a map reference (a write through a location that was
    never allocated is lost; well-formed states hold no such location). *)
Definition assign (l : loc) (m : gmap ID Address) (h : store) : store :=
  <[l := m]> h.

(** Go's [m[k]] on a [map[string]string]: the zero value when the key is
    absent. *)
Definition index (m : gmap string string) (k : string) : string :=
  default "" (m !! k).

(** ** Wire messages ([pb] and [net]) *)

(** [net.IPAddress], as produced by [addr.ParseProxyIPV4]: the 32 bits of an
    IPv4 address. *)
Definition IPAddress : Type := N.

Record TcpAddress := mkTcpAddress {
  Ip : IPAddress;
  TcpPort : N;
}.

(** [pb.TlsIdentity] with its only strategy, the DNS-like identity. *)
Inductive TlsIdentity := DnsLikeIdentity (name : string).

(** [pb.ProtocolHint] with its only protocol, H2. *)
Inductive ProtocolHint := H2.

(** [pb.WeightedAddr]; the pointer fields are options. *)
Record WeightedAddr := mkWeightedAddr {
  Addr : TcpAddress;
  Weight : N;
  MetricLabels : gmap string string;
  WaTlsIdentity : option TlsIdentity;
  WaProtocolHint : option ProtocolHint;
  WaAuthorityOverride : option string;
}.

(** [pb.Update]. *)
Inductive Update :=
  | Update_Add (addrs : list WeightedAddr) (metricLabels : gmap string string)
  | Update_Remove (addrs : list TcpAddress)
  | Update_NoEndpoints (svcExists : bool).

(** A Go [(value, error)] pair of which exactly one side is meaningful. *)
Inductive result (A : Type) :=
  | Ok (a : A)
  | Err (msg : string).
Arguments Ok {A} a.
Arguments Err {A} msg.

(** Equality of all the data above is decidable. *)
Global Instance Pod_eq_dec : EqDecision Pod.
Proof. solve_decision. Defined.
Global Instance Address_eq_dec : EqDecision Address.
Proof. solve_decision. Defined.
Global Instance AddressSet_eq_dec : EqDecision AddressSet.
Proof. solve_decision. Defined.
Global Instance TcpAddress_eq_dec : EqDecision TcpAddress.
Proof. solve_decision. Defined.
Global Instance TlsIdentity_eq_dec : EqDecision TlsIdentity.
Proof. solve_decision. Defined.
Global Instance ProtocolHint_eq_dec : EqDecision ProtocolHint.
Proof. solve_decision. Defined.
Global Instance WeightedAddr_eq_dec : EqDecision WeightedAddr.
Proof. solve_decision. Defined.
Global Instance Update_eq_dec : EqDecision Update.
Proof. solve_decision. Defined.

(** ** The translator *)

(** [endpointTranslator].  [stream] records the updates handed to
    [stream.Send], oldest first; the error [Send] may return is only logged,
    and logging is not modelled. *)
Record endpointTranslator := mkEndpointTranslator {
  controllerNS : string;
  identityTrustDomain : string;
  enableH2Upgrade : bool;
  nodeTopologyLabels : gmap string string;
  availableEndpoints : AddressSet;
  filteredSnapshot : AddressSet;
  stream : list Update;
}.

(** A translator together with the store its maps live in. *)
Record TranslatorState := mkState {
  heap : store;
  et : endpointTranslator;
}.

Definition with_heap (h : store) (s : TranslatorState) : TranslatorState :=
  mkState h (et s).

Definition with_availableEndpoints (a : AddressSet) (s : TranslatorState)
  : TranslatorState :=
  let e := et s in
  mkState (heap s)
    (mkEndpointTranslator (controllerNS e) (identityTrustDomain e)
       (enableH2Upgrade e) (nodeTopologyLabels e) a (filteredSnapshot e)
       (stream e)).

Definition with_filteredSnapshot (f : AddressSet) (s : TranslatorState)
  : TranslatorState :=
  let e := et s in
  mkState (heap s)
    (mkEndpointTranslator (controllerNS e) (identityTrustDomain e)
       (enableH2Upgrade e) (nodeTopologyLabels e) (availableEndpoints e) f
       (stream e)).

(** [et.stream.Send(u)]. *)
Definition Send (u : Update) (s : TranslatorState) : TranslatorState :=
  let e := et s in
  mkState (heap s)
    (mkEndpointTranslator (controllerNS e) (identityTrustDomain e)
       (enableH2Upgrade e) (nodeTopologyLabels e) (availableEndpoints e)
       (filteredSnapshot e) (stream e ++ [u])).

(** The address map behind [et.availableEndpoints.Addresses]. *)
Definition availableAddrs (s : TranslatorState) : gmap ID Address :=
  deref (heap s) (Addresses (availableEndpoints (et s))).

(** The address map behind [et.filteredSnapshot.Addresses]. *)
Definition snapshotAddrs (s : TranslatorState) : gmap ID Address :=
  deref (heap s) (Addresses (filteredSnapshot (et s))).

(** [newEmptyAddressSet]. *)
Definition newEmptyAddressSet (h : store) : AddressSet * store :=
  let '(l, h') := alloc ∅ h in
  (mkAddressSet l ∅ [], h').

(** ** Topology filter *)

(** The inner loop of [filterAddresses] for one preference: every address
    whose topology label for [pref] equals the locality of the source node
    is written into [filtered]. *)
Definition selectTier (pref srcLocality : string)
    (avail filtered : gmap ID Address) : gmap ID Address :=
  map_fold
    (λ id address acc,
       if decide (index (TopologyLabels address) pref = srcLocality)
       then <[id := address]> acc else acc)
    filtered avail.

(** The three places the preference loop of [filterAddresses] leaves from. *)
Inductive filterExit :=
  | ExitWildcard                            (* return et.availableEndpoints *)
  | ExitFiltered (filtered : gmap ID Address) (* return the filtered map *)
  | ExitNone.                               (* fell out of the loop *)

(** The loop over [et.availableEndpoints.TopologicalPref].  [filtered] is
    the one map made before the loop and written to by every tier. *)
Fixpoint filterLoop (node : gmap string string) (avail : gmap ID Address)
    (prefs : list string) (filtered : gmap ID Address) : filterExit :=
  match prefs with
  | [] => ExitNone
  | pref :: rest =>
      if decide (pref = "*") then ExitWildcard
      else
        match node !! pref with
        | None => filterLoop node avail rest filtered
        | Some srcLocality =>
            let filtered' := selectTier pref srcLocality avail filtered in
            if decide (0 < size filtered') then ExitFiltered filtered'
            else filterLoop node avail rest filtered'
        end
  end.

(** The copy loop of the branch without preference. *)
Definition copyAddresses (avail : gmap ID Address) : gmap ID Address :=
  map_fold (λ k v acc, <[k := v]> acc) ∅ avail.

(** [filterAddresses]. *)
Definition filterAddresses (s : TranslatorState) : AddressSet * store :=
  let avail := availableEndpoints (et s) in
  if decide (length (TopologicalPref avail) = 0) then
    let '(l, h') := alloc (copyAddresses (availableAddrs s)) (heap s) in
    (mkAddressSet l (Labels avail) [], h')
  else
    match filterLoop (nodeTopologyLabels (et s)) (availableAddrs s)
            (TopologicalPref avail) ∅ with
    | ExitWildcard => (avail, heap s)
    | ExitFiltered filtered =>
        let '(l, h') := alloc filtered (heap s) in
        (mkAddressSet l (Labels avail) [], h')
    | ExitNone => newEmptyAddressSet (heap s)
    end.

(** The first statement of [sendFilteredUpdate]: the available endpoints
    keep their map and take the labels and the preference of the incoming
    set. *)
Definition adoptMetadata (set : AddressSet) (s : TranslatorState)
  : TranslatorState :=
  with_availableEndpoints
    (mkAddressSet (Addresses (availableEndpoints (et s)))
       (Labels set) (TopologicalPref set)) s.

(** ** Diff engine *)

(** [diffEndpoints]: the entries of [filtered] whose id the snapshot lacks,
    and the entries of the snapshot whose id [filtered] lacks, each in a map
    of its own, both labelled with the labels of [filtered]. *)
Definition diffEndpoints (filtered : AddressSet) (s : TranslatorState)
  : AddressSet * AddressSet * store :=
  let new := deref (heap s) (Addresses filtered) in
  let old := snapshotAddrs s in
  let add :=
    map_fold
      (λ id address acc,
         match old !! id with
         | None => <[id := address]> acc
         | Some _ => acc
         end) ∅ new in
  let remove :=
    map_fold
      (λ id address acc,
         match new !! id with
         | None => <[id := address]> acc
         | Some _ => acc
         end) ∅ old in
  let '(la, h1) := alloc add (heap s) in
  let '(lr, h2) := alloc remove h1 in
  (mkAddressSet la (Labels filtered) [],
   mkAddressSet lr (Labels filtered) [],
   h2).

(** ** Wire translation *)

Definition defaultWeight : N := 10000.

(** What the translator uses of the packages [addr] and [k8s] of the
    repository, whose sources are not part of this development: the address
    parser, two label and annotation keys, the default identity mode, and
    the two pod helpers. *)
Record Externals := mkExternals {
  addr_ParseProxyIPV4 : string → result IPAddress;
  k8s_ControllerNSLabel : string;
  k8s_IdentityModeAnnotation : string;
  k8s_IdentityModeDefault : string;
  k8s_GetServiceAccountAndNS : Pod → string * string;
  k8s_GetPodLabels : string → string → Pod → gmap string string;
}.

(** [fmt.Sprintf("%s.%s.serviceaccount.identity.%s.%s", ...)]. *)
Definition identityName (sa ns controllerNS trustDomain : string) : string :=
  (sa +:+ "." +:+ ns +:+ ".serviceaccount.identity." +:+ controllerNS
      +:+ "." +:+ trustDomain)%string.

Section Translation.
Context (ext : Externals).

(** [toAddr]. *)
Definition toAddr (address : Address) : result TcpAddress :=
  match addr_ParseProxyIPV4 ext (IP address) with
  | Err e => Err e
  | Ok ip => Ok (mkTcpAddress ip (Port address))
  end.

(** [toWeightedAddr], for an address whose [Pod] is [pod]. *)
Definition toWeightedAddr (e : endpointTranslator) (address : Address)
    (pod : Pod) : result WeightedAddr :=
  let controllerNS' := index (PodLabels pod) (k8s_ControllerNSLabel ext) in
  let '(sa, ns) := k8s_GetServiceAccountAndNS ext pod in
  let labels :=
    k8s_GetPodLabels ext (OwnerKind address) (OwnerName address) pod in
  let hint :=
    if enableH2Upgrade e && bool_decide (controllerNS' ≠ "")
    then Some H2 else None in
  let identity :=
    if bool_decide (identityTrustDomain e ≠ "")
       && bool_decide (controllerNS' = controllerNS e)
       && bool_decide (index (PodAnnotations pod)
                         (k8s_IdentityModeAnnotation ext)
                       = k8s_IdentityModeDefault ext)
    then Some (DnsLikeIdentity
                 (identityName sa ns controllerNS' (identityTrustDomain e)))
    else None in
  match toAddr address with
  | Err err => Err err
  | Ok tcpAddr =>
      Ok (mkWeightedAddr tcpAddr defaultWeight labels identity hint None)
  end.

(** The body of the loop of [sendClientAdd]: the weighted address of one
    endpoint, or the error that makes the loop skip it.  For an address
    without pod the source builds [wa] before it looks at [err]; a [wa]
    built around a failed [toAddr] is never used. *)
Definition translateAdd (e : endpointTranslator) (address : Address)
  : result WeightedAddr :=
  match AddrPod address with
  | Some pod => toWeightedAddr e address pod
  | None =>
      let authOverride :=
        if bool_decide (AuthorityOverride address ≠ "")
        then Some (AuthorityOverride address) else None in
      match toAddr address with
      | Err err => Err err
      | Ok addr =>
          let wa :=
            mkWeightedAddr addr defaultWeight ∅ None None authOverride in
          if bool_decide (Identity address ≠ "") then
            let wa1 :=
              mkWeightedAddr (Addr wa) (Weight wa) (MetricLabels wa)
                (Some (DnsLikeIdentity (Identity address)))
                (WaProtocolHint wa) (WaAuthorityOverride wa) in
            if enableH2Upgrade e then
              Ok (mkWeightedAddr (Addr wa1) (Weight wa1) (MetricLabels wa1)
                    (WaTlsIdentity wa1) (Some H2) (WaAuthorityOverride wa1))
            else Ok wa1
          else Ok wa
      end
  end.

(** The weighted addresses [sendClientAdd] collects: the map is ranged
    over (in the order [map_to_list] fixes; Go leaves it open), an address
    that fails to translate is skipped, the others are appended. *)
Definition collectAdds (e : endpointTranslator) (m : gmap ID Address)
  : list WeightedAddr :=
  foldl
    (λ addrs entry,
       match translateAdd e entry.2 with
       | Err _ => addrs
       | Ok wa => addrs ++ [wa]
       end) [] (map_to_list m).

(** [sendClientAdd]. *)
Definition sendClientAdd (set : AddressSet) (s : TranslatorState)
  : TranslatorState :=
  let addrs := collectAdds (et s) (deref (heap s) (Addresses set)) in
  Send (Update_Add addrs (Labels set)) s.

(** The addresses [sendClientRemove] collects. *)
Definition collectRemoves (m : gmap ID Address) : list TcpAddress :=
  foldl
    (λ addrs entry,
       match toAddr entry.2 with
       | Err _ => addrs
       | Ok tcpAddr => addrs ++ [tcpAddr]
       end) [] (map_to_list m).

(** [sendClientRemove]. *)
Definition sendClientRemove (set : AddressSet) (s : TranslatorState)
  : TranslatorState :=
  let addrs := collectRemoves (deref (heap s) (Addresses set)) in
  Send (Update_Remove addrs) s.

(** ** Update entry points *)

(** [sendFilteredUpdate]. *)
Definition sendFilteredUpdate (set : AddressSet) (s : TranslatorState)
  : TranslatorState :=
  let s1 := adoptMetadata set s in
  let '(filtered, h2) := filterAddresses s1 in
  let s2 := with_heap h2 s1 in
  let '(diffAdd, diffRemove, h3) := diffEndpoints filtered s2 in
  let s3 := with_heap h3 s2 in
  let s4 :=
    if decide (0 < size (deref (heap s3) (Addresses diffAdd)))
    then sendClientAdd diffAdd s3 else s3 in
  let s5 :=
    if decide (0 < size (deref (heap s4) (Addresses diffRemove)))
    then sendClientRemove diffRemove s4 else s4 in
  with_filteredSnapshot filtered s5.

(** [Add]: every entry of the incoming set is written into the map of the
    available endpoints, in place. *)
Definition Add (set : AddressSet) (s : TranslatorState) : TranslatorState :=
  let dst := Addresses (availableEndpoints (et s)) in
  let merged :=
    map_fold (λ id address acc, <[id := address]> acc)
      (deref (heap s) dst) (deref (heap s) (Addresses set)) in
  sendFilteredUpdate set (with_heap (assign dst merged (heap s)) s).

(** [Remove]: every id of the incoming set is deleted from the map of the
    available endpoints, in place. *)
Definition Remove (set : AddressSet) (s : TranslatorState)
  : TranslatorState :=
  let dst := Addresses (availableEndpoints (et s)) in
  let pruned :=
    map_fold (λ id _ acc, delete id acc)
      (deref (heap s) dst) (deref (heap s) (Addresses set)) in
  sendFilteredUpdate set (with_heap (assign dst pruned (heap s)) s).

(** [NoEndpoints]: both sets get a new, empty map of their own (labels
    and preference stay), and the message is sent. *)
Definition NoEndpoints (svcExists : bool) (s : TranslatorState)
  : TranslatorState :=
  let '(la, h1) := alloc ∅ (heap s) in
  let avail := availableEndpoints (et s) in
  let s1 :=
    with_availableEndpoints
      (mkAddressSet la (Labels avail) (TopologicalPref avail))
      (with_heap h1 s) in
  let '(lf, h2) := alloc ∅ (heap s1) in
  let snap := filteredSnapshot (et s1) in
  let s2 :=
    with_filteredSnapshot
      (mkAddressSet lf (Labels snap) (TopologicalPref snap))
      (with_heap h2 s1) in
  Send (Update_NoEndpoints svcExists) s2.

End Translation.

(** ** Construction *)

(** The node labels [getK8sNodeTopology] keeps: [corev1.LabelHostname],
    [corev1.LabelZoneFailureDomainStable] and [corev1.LabelZoneRegionStable]. *)
Definition LabelHostname : string := "kubernetes.io/hostname".
Definition LabelZoneFailureDomainStable : string :=
  "topology.kubernetes.io/zone".
Definition LabelZoneRegionStable : string := "topology.kubernetes.io/region".

(** [getK8sNodeTopology], given what the lookup of the source node returned:
    the labels of the node, or an error. *)
Definition getK8sNodeTopology (node : result (gmap string string))
  : gmap string string * option string :=
  match node with
  | Err err => (∅, Some err)
  | Ok labels =>
      (map_fold
         (λ k v acc,
            if bool_decide (k = LabelHostname)
               || bool_decide (k = LabelZoneFailureDomainStable)
               || bool_decide (k = LabelZoneRegionStable)
            then <[k := v]> acc else acc) ∅ labels,
       None)
  end.

(** [newEndpointTranslator]: a failed node lookup is logged and leaves the
    translator with an empty node topology; both sets start empty, each
    with a map of its own. *)
Definition newEndpointTranslator (controllerNS identityTrustDomain : string)
    (enableH2Upgrade : bool) (node : result (gmap string string))
  : TranslatorState :=
  let '(nodeTopologyLabels, _) := getK8sNodeTopology node in
  let '(availableEndpoints, h1) := newEmptyAddressSet [] in
  let '(filteredSnapshot, h2) := newEmptyAddressSet h1 in
  mkState h2
    (mkEndpointTranslator controllerNS identityTrustDomain enableH2Upgrade
       nodeTopologyLabels availableEndpoints filteredSnapshot []).

(** ** The watcher's side *)

(** One call of the endpoints watcher on its listener.  The watcher builds
    the address set it passes; the translator reads the map of that set and
    keeps no reference to it. *)
Inductive call :=
  | CallAdd (addresses : gmap ID Address) (labels : gmap string string)
      (pref : list string)
  | CallRemove (addresses : gmap ID Address) (labels : gmap string string)
      (pref : list string)
  | CallNoEndpoints (svcExists : bool).

Definition perform (ext : Externals) (c : call) (s : TranslatorState)
  : TranslatorState :=
  match c with
  | CallAdd addresses labels pref =>
      let '(l, h) := alloc addresses (heap s) in
      Add ext (mkAddressSet l labels pref) (with_heap h s)
  | CallRemove addresses labels pref =>
      let '(l, h) := alloc addresses (heap s) in
      Remove ext (mkAddressSet l labels pref) (with_heap h s)
  | CallNoEndpoints svcExists => NoEndpoints svcExists s
  end.

Definition run (ext : Externals) (calls : list call) (s : TranslatorState)
  : TranslatorState :=
  foldl (λ s c, perform ext c s) s calls.

(** The states a translator can be in: those a sequence of watcher calls
    leads to from a newly made translator. *)
Definition reachable (ext : Externals) (s : TranslatorState) : Prop :=
  ∃ controllerNS identityTrustDomain enableH2Upgrade node calls,
    s = run ext calls
          (newEndpointTranslator controllerNS identityTrustDomain
             enableH2Upgrade node).

(** Every map reference of the translator points into the store. *)
Definition wf (s : TranslatorState) : Prop :=
  Addresses (availableEndpoints (et s)) < length (heap s)
  ∧ Addresses (filteredSnapshot (et s)) < length (heap s).

(** ** Views used in the statements *)

(** The endpoints one tier selects: those whose topology label for [pref]
    equals the locality of the source node; none when the node has no
    locality for [pref]. *)
Definition tierMatches (node : gmap string string) (avail : gmap ID Address)
    (pref : string) : gmap ID Address :=
  match node !! pref with
  | None => ∅
  | Some srcLocality =>
      filter (λ entry, index (TopologyLabels entry.2) pref = srcLocality)
        avail
  end.

(** A tier that is not the wildcard, for which the locality of the client is
    known, and which matches at least one endpoint. *)
Definition eligible (node : gmap string string) (avail : gmap ID Address)
    (pref : string) : Prop :=
  pref ≠ "*" ∧ is_Some (node !! pref) ∧ tierMatches node avail pref ≠ ∅.

Global Instance eligible_dec (node : gmap string string)
    (avail : gmap ID Address) (pref : string) :
  Decision (eligible node avail pref).
Proof. unfold eligible. apply _. Defined.

(** The address map of the set [filterAddresses] returns. *)
Definition filteredAddrs (s : TranslatorState) : gmap ID Address :=
  let '(filtered, h) := filterAddresses s in
  deref h (Addresses filtered).

(** What the filter selects, as a function of the node topology, the
    preference and the content of the available map. *)
Definition filteredView (node : gmap string string) (prefs : list string)
    (avail : gmap ID Address) : gmap ID Address :=
  match prefs with
  | [] => avail
  | _ =>
      match filterLoop node avail prefs ∅ with
      | ExitWildcard => avail
      | ExitFiltered filtered => filtered
      | ExitNone => ∅
      end
  end.

(** The bookkeeping of a translator: the store and its two sets; what is
    left out is the configuration and the messages sent. *)
Definition bookkeeping (s : TranslatorState)
  : list (gmap ID Address) * AddressSet * AddressSet :=
  (heap s, availableEndpoints (et s), filteredSnapshot (et s)).

(** The address maps of the two sets [diffEndpoints] returns. *)
Definition diffAddrs (filtered : AddressSet) (s : TranslatorState)
  : gmap ID Address * gmap ID Address :=
  let '(toAdd, toRemove, h) := diffEndpoints filtered s in
  (deref h (Addresses toAdd), deref h (Addresses toRemove)).

(** ** Views used in the further properties *)

(** The configuration of a translator: the fields no method assigns to. *)
Definition config (e : endpointTranslator)
  : string * string * bool * gmap string string :=
  (controllerNS e, identityTrustDomain e, enableH2Upgrade e,
   nodeTopologyLabels e).

(** The entries of a filtered view whose id a snapshot lacks, and the
    entries of the snapshot whose id the view lacks. *)
Definition pendingAdd (view snapshot : gmap ID Address) : gmap ID Address :=
  filter (λ entry, snapshot !! entry.1 = None) view.
Definition pendingRemove (view snapshot : gmap ID Address)
  : gmap ID Address :=
  filter (λ entry, view !! entry.1 = None) snapshot.

(** The messages one run of the pipeline sends for two such sets: an add
    message if the first is not empty, then a remove message if the second
    is not empty. *)
Definition updateMessages (ext : Externals) (e : endpointTranslator)
    (labels : gmap string string) (toAdd toRemove : gmap ID Address)
  : list Update :=
  (if decide (0 < size toAdd)
   then [Update_Add (collectAdds ext e toAdd) labels] else [])
  ++ (if decide (0 < size toRemove)
      then [Update_Remove (collectRemoves ext toRemove)] else []).

(** The available endpoints once the ids of an incoming set are deleted. *)
Definition pruned (incoming available : gmap ID Address) : gmap ID Address :=
  filter (λ entry, incoming !! entry.1 = None) available.

(** The snapshot [diffEndpoints] reads during a call that leaves [available]
    in the map of the available endpoints: that very map when the snapshot
    shares it, the snapshot of before the call otherwise. *)
Definition snapshotRead (s : TranslatorState) (available : gmap ID Address)
  : gmap ID Address :=
  if decide (Addresses (filteredSnapshot (et s))
             = Addresses (availableEndpoints (et s)))
  then available else snapshotAddrs s.

(** The topology labels [getK8sNodeTopology] recognizes. *)
Definition recognized (k : string) : Prop :=
  k = LabelHostname ∨ k = LabelZoneFailureDomainStable
  ∨ k = LabelZoneRegionStable.

Global Instance recognized_dec (k : string) : Decision (recognized k).
Proof. unfold recognized. apply _. Defined.

(** The address with another identity string and another override. *)
Definition withOverrides (identity override : string) (address : Address)
  : Address :=
  mkAddress (IP address) (Port address) (AddrPod address)
    (OwnerName address) (OwnerKind address) identity override
    (TopologyLabels address).

(** ** A sample of the external packages, to run the model on examples *)

Definition digitValue (c : Ascii.ascii) : option N :=
  let n := Ascii.N_of_ascii c in
  if (48 <=? n)%N && (n <=? 57)%N then Some (n - 48)%N else None.

(** Dotted decimal: [octets] are the numbers already closed by a dot, [cur]
    the number being read. *)
Fixpoint parseQuad (s : string) (octets : list N) (cur : option N)
  : option (list N) :=
  match s with
  | EmptyString =>
      match cur with
      | Some n => Some (octets ++ [n])
      | None => None
      end
  | String c rest =>
      if bool_decide (c = Ascii.ascii_of_nat 46) then
        match cur with
        | Some n => parseQuad rest (octets ++ [n]) None
        | None => None
        end
      else
        match digitValue c with
        | Some d =>
            let n := (10 * default 0 cur + d)%N in
            if (n <=? 255)%N then parseQuad rest octets (Some n) else None
        | None => None
        end
  end.

Definition sampleParseProxyIPV4 (ip : string) : result IPAddress :=
  match parseQuad ip [] None with
  | Some [a; b; c; d] => Ok (((a * 256 + b) * 256 + c) * 256 + d)%N
  | _ => Err ("Invalid IP address: " +:+ ip)
  end.

Definition sampleExternals : Externals :=
  mkExternals sampleParseProxyIPV4
    "linkerd.io/control-plane-ns" "linkerd.io/identity-mode" "default"
    (λ pod,
       (if bool_decide (PodServiceAccountName pod = "") then "default"
        else PodServiceAccountName pod,
        if bool_decide (PodNamespace pod = "") then "default"
        else PodNamespace pod))
    (λ ownerKind ownerName pod,
       if bool_decide (ownerKind ≠ "") && bool_decide (ownerName ≠ "")
       then {[ ownerKind := ownerName ]} else ∅).

(** The value of an [Ok]. *)
Definition okValue {A : Type} (r : result A) : option A :=
  match r with
  | Ok a => Some a
  | Err _ => None
  end.

(** ** Two sentences of the specification, as they are written *)


(** "For an endpoint without workload metadata the translation attaches,
    independently of the identity, an H2-upgrade hint if upgrade is
    enabled." *)
Definition bare_hint_as_stated (ext : Externals) (e : endpointTranslator)
    (address : Address) : Prop :=
  ∀ wa : WeightedAddr,
    AddrPod address = None →
    translateAdd ext e address = Ok wa →
    enableH2Upgrade e = true →
    WaProtocolHint wa = Some H2.

(** ** Example data *)

Definition web1 : ID := ("emojivoto", "web-1").
Definition web2 : ID := ("emojivoto", "web-2").
Definition web9 : ID := ("emojivoto", "web-9").

(** Two endpoints without pod, one in zone a and one in zone b. *)
Definition inZoneA : Address :=
  mkAddress "10.0.0.1" 8080 None "" "" "" ""
    {[ LabelZoneFailureDomainStable := "a" ]}.
Definition inZoneB : Address :=
  mkAddress "10.0.0.2" 8080 None "" "" "" ""
    {[ LabelZoneFailureDomainStable := "b" ]}.

(** An endpoint whose address does not parse. *)
Definition malformed : Address :=
  mkAddress "10.0.0.256" 8080 None "" "" "" ""
    {[ LabelZoneFailureDomainStable := "a" ]}.

(** A meshed pod of the control plane in namespace linkerd. *)
Definition meshedPod : Pod :=
  mkPod "emojivoto" "web"
    {[ "linkerd.io/control-plane-ns" := "linkerd" ]}
    {[ "linkerd.io/identity-mode" := "default" ]}.
Definition meshed : Address :=
  mkAddress "10.0.0.3" 8080 (Some meshedPod) "web" "deployment" "" ""
    {[ LabelZoneFailureDomainStable := "a" ]}.

(** A translator for a client on a node in zone a, and one for a client
    whose node lookup failed. *)
Definition clientInZoneA : TranslatorState :=
  newEndpointTranslator "linkerd" "cluster.local" true
    (Ok {[ LabelZoneFailureDomainStable := "a";
           LabelHostname := "node-1";
           "kubernetes.io/os" := "linux" ]}).
Definition clientNowhere : TranslatorState :=
  newEndpointTranslator "linkerd" "cluster.local" true
    (Err "nodes not found").

(** The client in zone a after an Add of both endpoints with preference
    [zone]. *)
Definition zonePreferred : TranslatorState :=
  run sampleExternals
    [CallAdd {[ web1 := inZoneA; web2 := inZoneB ]} ∅
       [LabelZoneFailureDomainStable]]
    clientInZoneA.


(** The client in zone a after an Add of an endpoint of zone b only, the
    wildcard following the zone. *)
Definition zoneThenWildcard : TranslatorState :=
  run sampleExternals
    [CallAdd {[ web2 := inZoneB ]} ∅ [LabelZoneFailureDomainStable; "*"]]
    clientInZoneA.

(** The client without topology after an Add under the wildcard. *)
Definition afterWildcardAdd : TranslatorState :=
  run sampleExternals [CallAdd {[ web1 := inZoneA ]} ∅ ["*"]] clientNowhere.

(** ... and after the Remove of that endpoint under preference [zone]. *)
Definition afterZoneRemove : TranslatorState :=
  perform sampleExternals
    (CallRemove {[ web1 := inZoneA ]} ∅ [LabelZoneFailureDomainStable])
    afterWildcardAdd.

(** An endpoint whose address the parser accepts. *)
Definition parses (ext : Externals) (address : Address) : Prop :=
  is_Some (okValue (addr_ParseProxyIPV4 ext (IP address))).

Global Instance parses_dec (ext : Externals) (address : Address) :
  Decision (parses ext address).
Proof. unfold parses. apply _. Defined.

(** The client in zone a after an Add under a preference for the operating
    system label, which is no topology label. *)
Definition osPreferred : TranslatorState :=
  run sampleExternals
    [CallAdd {[ web1 := inZoneA; web2 := inZoneB ]} ∅ ["kubernetes.io/os"]]
    clientInZoneA.

(** * Properties *)

(** ** The store *)

Lemma deref_app_old (h h' : store) (l : loc) :
  l < length h → deref (h ++ h') l = deref h l.
Proof. intros Hl. unfold deref. by rewrite lookup_app_l. Qed.

Lemma deref_app_new (h : store) (m : gmap ID Address) (h' : store) :
  deref (h ++ m :: h') (length h) = m.
Proof. unfold deref. by rewrite list_lookup_middle. Qed.

Lemma deref_assign_eq (h : store) (l : loc) (m : gmap ID Address) :
  l < length h → deref (assign l m h) l = m.
Proof. intros Hl. unfold deref, assign. by rewrite list_lookup_insert_eq. Qed.

Lemma length_assign (h : store) (l : loc) (m : gmap ID Address) :
  length (assign l m h) = length h.
Proof. apply length_insert. Qed.

(** ** The range loops over maps *)

(** Ranging over a map and writing the selected entries into [filtered]
    leaves the selection on top of what [filtered] held. *)
Lemma selectTier_union (pref srcLocality : string)
    (avail filtered : gmap ID Address) :
  selectTier pref srcLocality avail filtered
  = filter (λ entry, index (TopologyLabels entry.2) pref = srcLocality) avail
      ∪ filtered.
Proof.
  unfold selectTier.
  induction avail as [|id address avail Hid Hfirst IH] using map_first_key_ind.
  - by rewrite map_fold_empty, map_filter_empty, (left_id_L ∅ (∪)).
  - rewrite map_fold_insert_first_key by done. rewrite IH.
    case_decide as Hsel.
    + rewrite map_filter_insert_True by done. by rewrite insert_union_l.
    + rewrite map_filter_insert_False by done. by rewrite delete_id.
Qed.

Lemma copyAddresses_id (avail : gmap ID Address) : copyAddresses avail = avail.
Proof.
  unfold copyAddresses.
  induction avail as [|id address avail Hid Hfirst IH] using map_first_key_ind.
  - by rewrite map_fold_empty.
  - rewrite map_fold_insert_first_key by done. by rewrite IH.
Qed.

(** ** The preference loop *)

Lemma tierMatches_unknown (node : gmap string string)
    (avail : gmap ID Address) (pref : string) :
  node !! pref = None → tierMatches node avail pref = ∅.
Proof. intros Hnode. unfold tierMatches. by rewrite Hnode. Qed.

(** One turn of the loop, entered with [filtered] still empty: the wildcard
    leaves at once, a tier that selects something leaves with its
    selection, and any other tier goes on with [filtered] empty again. *)
Lemma filterLoop_cons (node : gmap string string) (avail : gmap ID Address)
    (pref : string) (rest : list string) :
  filterLoop node avail (pref :: rest) ∅
  = if decide (pref = "*") then ExitWildcard
    else if decide (tierMatches node avail pref = ∅)
         then filterLoop node avail rest ∅
         else ExitFiltered (tierMatches node avail pref).
Proof.
  simpl. case_decide as Hwild; [done|].
  unfold tierMatches. destruct (node !! pref) as [srcLocality|].
  - rewrite selectTier_union, (right_id_L ∅ (∪)).
    destruct (decide (0 < size _)) as [Hpos|Hzero];
      destruct (decide (_ = ∅)) as [Hempty|Hsome].
    + rewrite Hempty, map_size_empty in Hpos. lia.
    + done.
    + by rewrite Hempty.
    + destruct Hsome. apply map_size_empty_iff. lia.
  - by rewrite decide_True.
Qed.

(** Tiers that select nothing are passed over. *)
Lemma filterLoop_skip (node : gmap string string) (avail : gmap ID Address)
    (pre rest : list string) :
  Forall (λ p, p ≠ "*" ∧ tierMatches node avail p = ∅) pre →
  filterLoop node avail (pre ++ rest) ∅ = filterLoop node avail rest ∅.
Proof.
  induction 1 as [|p pre [Hwild Hnone] _ IH]; [done|].
  rewrite <-app_comm_cons, filterLoop_cons.
  by rewrite decide_False, decide_True.
Qed.


(** ** The filter as a whole *)

Lemma filteredAddrs_view (s : TranslatorState) :
  filteredAddrs s
  = filteredView (nodeTopologyLabels (et s))
      (TopologicalPref (availableEndpoints (et s))) (availableAddrs s).
Proof.
  unfold filteredAddrs, filterAddresses, filteredView, newEmptyAddressSet.
  destruct (TopologicalPref (availableEndpoints (et s))) as [|pref rest] eqn:Hp.
  - simpl. rewrite copyAddresses_id.
    apply (deref_app_new (heap s) (availableAddrs s) []).
  - rewrite decide_False by (simpl; lia).
    destruct (filterLoop _ _ _ _) as [|filtered|]; simpl.
    + done.
    + apply (deref_app_new (heap s) filtered []).
    + apply (deref_app_new (heap s) ∅ []).
Qed.

(** The filter only ever adds to the store. *)
Lemma filterAddresses_store (s : TranslatorState) :
  ∃ h', (filterAddresses s).2 = heap s ++ h'.
Proof.
  unfold filterAddresses, newEmptyAddressSet.
  case_decide; simpl; [by eexists|].
  destruct (filterLoop _ _ _ _); simpl; try by eexists.
  exists []. by rewrite app_nil_r.
Qed.

(** The set the filter returns points into the store it returns. *)
Lemma filterAddresses_loc (s : TranslatorState) :
  wf s →
  Addresses (filterAddresses s).1 < length (filterAddresses s).2.
Proof.
  intros [Havail _]. unfold filterAddresses, newEmptyAddressSet.
  case_decide; simpl; [rewrite length_app; simpl; lia|].
  destruct (filterLoop _ _ _ _); simpl;
    try (rewrite length_app; simpl; lia).
  done.
Qed.

(** ** The diff *)

Lemma diff_fold (a b : gmap ID Address) :
  map_fold
    (λ id address acc,
       match b !! id with
       | None => <[id := address]> acc
       | Some _ => acc
       end) ∅ a
  = filter (λ entry, b !! entry.1 = None) a.
Proof.
  induction a as [|id address a Hid Hfirst IH] using map_first_key_ind.
  - by rewrite map_fold_empty, map_filter_empty.
  - rewrite map_fold_insert_first_key by done. rewrite IH.
    destruct (b !! id) as [other|] eqn:Hb.
    + rewrite map_filter_insert_False by (simpl; congruence).
      by rewrite delete_id.
    + by rewrite map_filter_insert_True.
Qed.

(** The two maps of the diff, in closed form. *)
Lemma diffAddrs_filter (filtered : AddressSet) (s : TranslatorState) :
  diffAddrs filtered s
  = (filter (λ entry, snapshotAddrs s !! entry.1 = None)
       (deref (heap s) (Addresses filtered)),
     filter (λ entry, deref (heap s) (Addresses filtered) !! entry.1 = None)
       (snapshotAddrs s)).
Proof.
  unfold diffAddrs, diffEndpoints. simpl. rewrite !diff_fold. f_equal.
  - rewrite deref_app_old by (rewrite length_app; simpl; lia).
    apply (deref_app_new (heap s) _ []).
  - apply (deref_app_new (heap s ++ [_]) _ []).
Qed.

Lemma diffEndpoints_store (filtered : AddressSet) (s : TranslatorState) :
  ∃ h', (diffEndpoints filtered s).2 = heap s ++ h'.
Proof.
  unfold diffEndpoints. simpl. rewrite <-(assoc_L (++)). by eexists.
Qed.

(** ** Sending touches the stream only *)

Lemma bookkeeping_Send (u : Update) (s : TranslatorState) :
  bookkeeping (Send u s) = bookkeeping s.
Proof. done. Qed.

Lemma bookkeeping_sendClientAdd (ext : Externals) (set : AddressSet)
    (s : TranslatorState) :
  bookkeeping (sendClientAdd ext set s) = bookkeeping s.
Proof. done. Qed.

Lemma bookkeeping_sendClientRemove (ext : Externals) (set : AddressSet)
    (s : TranslatorState) :
  bookkeeping (sendClientRemove ext set s) = bookkeeping s.
Proof. done. Qed.

(** ** The pipeline *)

(** The bookkeeping [sendFilteredUpdate] ends with: the store after the
    filter and the diff, the available endpoints with the adopted labels and
    preference, and the filtered set as the snapshot. *)
Lemma bookkeeping_sendFilteredUpdate (ext : Externals) (set : AddressSet)
    (s : TranslatorState) :
  bookkeeping (sendFilteredUpdate ext set s)
  = let s1 := adoptMetadata set s in
    let s2 := with_heap (filterAddresses s1).2 s1 in
    ((diffEndpoints (filterAddresses s1).1 s2).2,
     availableEndpoints (et s1),
     (filterAddresses s1).1).
Proof.
  unfold sendFilteredUpdate.
  destruct (filterAddresses (adoptMetadata set s)) as [filtered h2].
  cbn [fst snd].
  destruct (diffEndpoints filtered (with_heap h2 (adoptMetadata set s)))
    as [[diffAdd diffRemove] h3].
  cbn [fst snd]. repeat case_decide; done.
Qed.

Lemma sendFilteredUpdate_config (ext : Externals) (set : AddressSet)
    (s : TranslatorState) :
  nodeTopologyLabels (et (sendFilteredUpdate ext set s))
  = nodeTopologyLabels (et s).
Proof.
  unfold sendFilteredUpdate.
  destruct (filterAddresses (adoptMetadata set s)) as [filtered h2].
  cbn [fst snd].
  destruct (diffEndpoints filtered (with_heap h2 (adoptMetadata set s)))
    as [[diffAdd diffRemove] h3].
  cbn [fst snd]. repeat case_decide; done.
Qed.

Lemma wf_adoptMetadata (set : AddressSet) (s : TranslatorState) :
  wf s → wf (adoptMetadata set s).
Proof. done. Qed.

(** After the pipeline the snapshot holds what the filter selects from the
    available endpoints as they then are. *)
Lemma sendFilteredUpdate_converges (ext : Externals) (set : AddressSet)
    (s : TranslatorState) :
  wf s →
  snapshotAddrs (sendFilteredUpdate ext set s)
  = filteredAddrs (sendFilteredUpdate ext set s).
Proof.
  intros Hwf.
  pose proof (bookkeeping_sendFilteredUpdate ext set s) as Hbook.
  pose proof (sendFilteredUpdate_config ext set s) as Hnode.
  pose proof (wf_adoptMetadata set s Hwf) as Hwf1.
  pose proof (filteredAddrs_view (adoptMetadata set s)) as Hview.
  pose proof (filterAddresses_store (adoptMetadata set s)) as [hf Hhf].
  pose proof (filterAddresses_loc _ Hwf1) as Hloc.
  rewrite filteredAddrs_view.
  unfold snapshotAddrs, availableAddrs, bookkeeping in *.
  destruct (sendFilteredUpdate ext set s) as [h' e']. simpl in *.
  destruct (diffEndpoints_store (filterAddresses (adoptMetadata set s)).1
              (with_heap (filterAddresses (adoptMetadata set s)).2
                 (adoptMetadata set s))) as [hd Hhd].
  simpl in Hhd. rewrite Hhd in Hbook.
  injection Hbook as -> -> ->. rewrite Hnode.
  rewrite deref_app_old by done.
  unfold filteredAddrs in Hview.
  destruct (filterAddresses (adoptMetadata set s)) as [filtered h2].
  simpl in *. rewrite Hview. subst h2.
  rewrite <-(assoc_L (++)).
  rewrite (deref_app_old (heap s)) by apply Hwf. done.
Qed.

(** ** Well-formedness *)

Lemma wf_sendFilteredUpdate (ext : Externals) (set : AddressSet)
    (s : TranslatorState) :
  wf s → wf (sendFilteredUpdate ext set s).
Proof.
  intros Hwf.
  pose proof (bookkeeping_sendFilteredUpdate ext set s) as Hbook.
  pose proof (wf_adoptMetadata set s Hwf) as Hwf1.
  pose proof (filterAddresses_store (adoptMetadata set s)) as [hf Hhf].
  pose proof (filterAddresses_loc _ Hwf1) as Hloc.
  destruct (diffEndpoints_store (filterAddresses (adoptMetadata set s)).1
              (with_heap (filterAddresses (adoptMetadata set s)).2
                 (adoptMetadata set s))) as [hd Hhd].
  unfold wf, bookkeeping in *.
  destruct (sendFilteredUpdate ext set s) as [h' e']. simpl in *.
  rewrite Hhd in Hbook. injection Hbook as -> -> ->.
  rewrite length_app. split; [|lia].
  rewrite Hhf, length_app. simpl. lia.
Qed.

Lemma wf_Add (ext : Externals) (set : AddressSet) (s : TranslatorState) :
  wf s → wf (Add ext set s).
Proof.
  intros Hwf. apply wf_sendFilteredUpdate.
  unfold wf in *. simpl. by rewrite length_assign.
Qed.

Lemma wf_Remove (ext : Externals) (set : AddressSet) (s : TranslatorState) :
  wf s → wf (Remove ext set s).
Proof.
  intros Hwf. apply wf_sendFilteredUpdate.
  unfold wf in *. simpl. by rewrite length_assign.
Qed.

Lemma wf_NoEndpoints (svcExists : bool) (s : TranslatorState) :
  wf (NoEndpoints svcExists s).
Proof. unfold wf, NoEndpoints. simpl. rewrite !length_app. simpl. lia. Qed.

Lemma wf_with_heap_app (s : TranslatorState) (h' : list (gmap ID Address)) :
  wf s → wf (with_heap (heap s ++ h') s).
Proof. unfold wf. simpl. rewrite length_app. lia. Qed.

Lemma wf_perform (ext : Externals) (c : call) (s : TranslatorState) :
  wf s → wf (perform ext c s).
Proof.
  intros Hwf. destruct c; simpl.
  - by apply wf_Add, wf_with_heap_app.
  - by apply wf_Remove, wf_with_heap_app.
  - apply wf_NoEndpoints.
Qed.

Lemma wf_run (ext : Externals) (calls : list call) (s : TranslatorState) :
  wf s → wf (run ext calls s).
Proof.
  revert s. induction calls as [|c calls IH]; intros s Hwf; [done|].
  simpl. by apply IH, wf_perform.
Qed.

Lemma wf_newEndpointTranslator (controllerNS identityTrustDomain : string)
    (enableH2Upgrade : bool) (node : result (gmap string string)) :
  wf (newEndpointTranslator controllerNS identityTrustDomain enableH2Upgrade
        node).
Proof. unfold wf, newEndpointTranslator. destruct node; simpl; lia. Qed.

Lemma reachable_wf (ext : Externals) (s : TranslatorState) :
  reachable ext s → wf s.
Proof.
  intros (cns & td & h2 & node & calls & ->).
  apply wf_run, wf_newEndpointTranslator.
Qed.

(** ** What Add and Remove do to the available endpoints *)

Lemma merge_fold (old src : gmap ID Address) :
  map_fold (λ id address acc, <[id := address]> acc) old src = src ∪ old.
Proof.
  induction src as [|id address src Hid Hfirst IH] using map_first_key_ind.
  - by rewrite map_fold_empty, (left_id_L ∅ (∪)).
  - rewrite map_fold_insert_first_key by done.
    by rewrite IH, insert_union_l.
Qed.

Lemma prune_fold (old src : gmap ID Address) :
  map_fold (λ id _ acc, delete id acc) old src
  = filter (λ entry, src !! entry.1 = None) old.
Proof.
  induction src as [|id address src Hid Hfirst IH] using map_first_key_ind.
  - rewrite map_fold_empty. symmetry. apply map_filter_id.
    intros i x _. apply lookup_empty.
  - rewrite map_fold_insert_first_key by done. rewrite IH.
    apply map_eq. intros i. apply option_eq. intros x.
    rewrite lookup_delete_Some, !map_lookup_filter_Some. simpl.
    rewrite lookup_insert_None. tauto.
Qed.

(** The pipeline leaves the map of the available endpoints as it finds
    it, and gives the set the labels and the preference of the incoming
    one. *)
Lemma availableEndpoints_sendFilteredUpdate (ext : Externals)
    (set : AddressSet) (s : TranslatorState) :
  availableEndpoints (et (sendFilteredUpdate ext set s))
  = mkAddressSet (Addresses (availableEndpoints (et s))) (Labels set)
      (TopologicalPref set).
Proof.
  pose proof (bookkeeping_sendFilteredUpdate ext set s) as Hbook.
  unfold bookkeeping in Hbook. simpl in Hbook. by injection Hbook.
Qed.

Lemma availableAddrs_sendFilteredUpdate (ext : Externals)
    (set : AddressSet) (s : TranslatorState) :
  wf s →
  availableAddrs (sendFilteredUpdate ext set s) = availableAddrs s.
Proof.
  intros Hwf.
  pose proof (bookkeeping_sendFilteredUpdate ext set s) as Hbook.
  pose proof (filterAddresses_store (adoptMetadata set s)) as [hf Hhf].
  destruct (diffEndpoints_store (filterAddresses (adoptMetadata set s)).1
              (with_heap (filterAddresses (adoptMetadata set s)).2
                 (adoptMetadata set s))) as [hd Hhd].
  unfold availableAddrs, bookkeeping in *.
  destruct (sendFilteredUpdate ext set s) as [h' e']. simpl in *.
  rewrite Hhd, Hhf in Hbook. injection Hbook as -> -> _. simpl.
  rewrite <-(assoc_L (++)). apply deref_app_old, Hwf.
Qed.

(** [Add] merges the incoming entries into the available endpoints, an
    incoming entry replacing one with the same id. *)
Lemma availableAddrs_Add (ext : Externals) (set : AddressSet)
    (s : TranslatorState) :
  wf s →
  availableAddrs (Add ext set s)
  = deref (heap s) (Addresses set) ∪ availableAddrs s.
Proof.
  intros Hwf. unfold Add.
  rewrite availableAddrs_sendFilteredUpdate
    by (unfold wf in *; simpl; by rewrite length_assign).
  unfold availableAddrs. simpl.
  rewrite deref_assign_eq by apply Hwf. apply merge_fold.
Qed.

(** [Remove] deletes the incoming ids from the available endpoints. *)
Lemma availableAddrs_Remove (ext : Externals) (set : AddressSet)
    (s : TranslatorState) :
  wf s →
  availableAddrs (Remove ext set s)
  = filter (λ entry, deref (heap s) (Addresses set) !! entry.1 = None)
      (availableAddrs s).
Proof.
  intros Hwf. unfold Remove.
  rewrite availableAddrs_sendFilteredUpdate
    by (unfold wf in *; simpl; by rewrite length_assign).
  unfold availableAddrs. simpl.
  rewrite deref_assign_eq by apply Hwf. apply prune_fold.
Qed.

(** * The claims *)

(** ** Snapshot convergence *)

(** C1.  For every reachable state of the translator and every address set,
    right after [Add] of that set, and right after [Remove] of it, the
    address map of [filteredSnapshot] is exactly the address map the
    topology filter yields on the available endpoints as they then are: the
    snapshot is the freshly filtered set, nothing of the old snapshot is
    kept.  The same holds when the set is one the watcher has just built. *)
Theorem snapshot_convergence (ext : Externals) (s : TranslatorState)
    (set : AddressSet) (addresses : gmap ID Address)
    (labels : gmap string string) (pref : list string) :
  reachable ext s →
  snapshotAddrs (Add ext set s) = filteredAddrs (Add ext set s)
  ∧ snapshotAddrs (Remove ext set s) = filteredAddrs (Remove ext set s)
  ∧ snapshotAddrs (perform ext (CallAdd addresses labels pref) s)
    = filteredAddrs (perform ext (CallAdd addresses labels pref) s)
  ∧ snapshotAddrs (perform ext (CallRemove addresses labels pref) s)
    = filteredAddrs (perform ext (CallRemove addresses labels pref) s).
Proof.
  intros Hwf%reachable_wf.
  assert (∀ s' l m, wf s' → wf (with_heap (assign l m (heap s')) s'))
    as Hassign.
  { intros s' l m Hwf'. unfold wf in *. simpl. by rewrite length_assign. }
  repeat split; apply sendFilteredUpdate_converges, Hassign; try done;
    by apply wf_with_heap_app.
Qed.

Lemma snapshot_convergence_witness :
  reachable sampleExternals zonePreferred
  ∧ snapshotAddrs
      (perform sampleExternals
         (CallRemove {[ web1 := inZoneA ]} ∅ [LabelZoneFailureDomainStable])
         zonePreferred)
    = filteredAddrs
        (perform sampleExternals
           (CallRemove {[ web1 := inZoneA ]} ∅ [LabelZoneFailureDomainStable])
           zonePreferred)
  ∧ snapshotAddrs zonePreferred = {[ web1 := inZoneA ]}
  ∧ snapshotAddrs
      (perform sampleExternals
         (CallRemove {[ web1 := inZoneA ]} ∅ [LabelZoneFailureDomainStable])
         zonePreferred)
    = ∅.
Proof.
  assert (reachable sampleExternals zonePreferred) as Hreach.
  { unfold reachable, zonePreferred, clientInZoneA. by eexists _, _, _, _, _. }
  split; [exact Hreach|]. split.
  - exact (proj2 (proj2 (proj2
      (snapshot_convergence sampleExternals zonePreferred
         (mkAddressSet 0 ∅ []) {[ web1 := inZoneA ]} ∅
         [LabelZoneFailureDomainStable] Hreach)))).
  - split; compute_done.
Defined.

(** ** Diff minimality *)

(** C2.  For every filtered set F and every snapshot S, the ids of the
    [toAdd] set [diffEndpoints] returns are exactly the ids of F that S
    lacks, the ids of [toRemove] exactly the ids of S that F lacks; their
    union is the symmetric difference of the two id sets and no id is in
    both.  The entries themselves are those of F, respectively of S. *)
Theorem diff_minimality (filtered : AddressSet) (s : TranslatorState) :
  let new := deref (heap s) (Addresses filtered) in
  let old := snapshotAddrs s in
  let toAdd := (diffAddrs filtered s).1 in
  let toRemove := (diffAddrs filtered s).2 in
  dom toAdd = dom new ∖ dom old
  ∧ dom toRemove = dom old ∖ dom new
  ∧ dom toAdd ∪ dom toRemove = (dom new ∖ dom old) ∪ (dom old ∖ dom new)
  ∧ dom toAdd ∩ dom toRemove = (∅ : gset ID)
  ∧ toAdd ⊆ new
  ∧ toRemove ⊆ old.
Proof.
  intros new old toAdd toRemove.
  assert (dom toAdd = dom new ∖ dom old) as HA.
  { subst toAdd. rewrite diffAddrs_filter. simpl. fold new old.
    apply set_eq. intros id.
    rewrite elem_of_difference, !elem_of_dom.
    unfold is_Some. setoid_rewrite map_lookup_filter_Some. simpl.
    split.
    - intros (address & Hnew & Hold). split; [eauto|].
      intros [other Hother]. congruence.
    - intros [[address Hnew] Hold]. exists address. split; [done|].
      destruct (old !! id) eqn:E; [|done]. destruct Hold. eauto. }
  assert (dom toRemove = dom old ∖ dom new) as HR.
  { subst toRemove. rewrite diffAddrs_filter. simpl. fold new old.
    apply set_eq. intros id.
    rewrite elem_of_difference, !elem_of_dom.
    unfold is_Some. setoid_rewrite map_lookup_filter_Some. simpl.
    split.
    - intros (address & Hold & Hnew). split; [eauto|].
      intros [other Hother]. congruence.
    - intros [[address Hold] Hnew]. exists address. split; [done|].
      destruct (new !! id) eqn:E; [|done]. destruct Hnew. eauto. }
  repeat split.
  - done.
  - done.
  - by rewrite HA, HR.
  - rewrite HA, HR. apply set_eq. intros id.
    rewrite elem_of_intersection, !elem_of_difference, elem_of_empty. tauto.
  - subst toAdd. rewrite diffAddrs_filter. apply map_filter_subseteq.
  - subst toRemove. rewrite diffAddrs_filter. apply map_filter_subseteq.
Qed.

(** ** Tier precedence *)






(** ** Wildcard short-circuit *)

(** C4.  When the preference list holds the wildcard and no tier before it
    selects anything, the filter returns the available set itself, all of
    it, and looks at no later tier. *)
Theorem wildcard_short_circuit (s : TranslatorState)
    (pre post : list string) :
  TopologicalPref (availableEndpoints (et s)) = pre ++ "*" :: post →
  Forall (λ p, p ≠ "*"
               ∧ tierMatches (nodeTopologyLabels (et s)) (availableAddrs s) p
                 = ∅) pre →
  filterAddresses s = (availableEndpoints (et s), heap s)
  ∧ filteredAddrs s = availableAddrs s.
Proof.
  intros Hprefs Hpre.
  assert (filterAddresses s = (availableEndpoints (et s), heap s)) as Hret.
  { unfold filterAddresses. rewrite Hprefs.
    rewrite decide_False by (rewrite length_app; simpl; lia).
    rewrite filterLoop_skip by done. rewrite filterLoop_cons.
    by rewrite decide_True. }
  split; [done|]. unfold filteredAddrs. by rewrite Hret.
Qed.

Lemma wildcard_short_circuit_witness :
  TopologicalPref (availableEndpoints (et zoneThenWildcard))
  = [LabelZoneFailureDomainStable] ++ "*" :: []
  ∧ Forall (λ p, p ≠ "*"
                 ∧ tierMatches (nodeTopologyLabels (et zoneThenWildcard))
                     (availableAddrs zoneThenWildcard) p = ∅)
      [LabelZoneFailureDomainStable]
  ∧ filteredAddrs zoneThenWildcard = availableAddrs zoneThenWildcard
  ∧ availableAddrs zoneThenWildcard = {[ web2 := inZoneB ]}.
Proof.
  assert (TopologicalPref (availableEndpoints (et zoneThenWildcard))
          = [LabelZoneFailureDomainStable] ++ "*" :: []) as Hprefs
    by compute_done.
  assert (Forall (λ p, p ≠ "*"
                 ∧ tierMatches (nodeTopologyLabels (et zoneThenWildcard))
                     (availableAddrs zoneThenWildcard) p = ∅)
            [LabelZoneFailureDomainStable]) as Hpre by compute_done.
  split; [exact Hprefs|]. split; [exact Hpre|]. split.
  - exact (proj2 (wildcard_short_circuit zoneThenWildcard
                    [LabelZoneFailureDomainStable] [] Hprefs Hpre)).
  - compute_done.
Defined.

(** ** No tier matches *)

(** On a preference list that is not empty, holds no wildcard, and of which
    no tier selects anything, the filter returns a new empty set. *)
Lemma filterAddresses_no_match (s : TranslatorState) :
  TopologicalPref (availableEndpoints (et s)) ≠ [] →
  Forall (λ p, p ≠ "*"
               ∧ tierMatches (nodeTopologyLabels (et s)) (availableAddrs s) p
                 = ∅)
    (TopologicalPref (availableEndpoints (et s))) →
  filterAddresses s = newEmptyAddressSet (heap s) ∧ filteredAddrs s = ∅.
Proof.
  intros Hne Hnone.
  assert (filterAddresses s = newEmptyAddressSet (heap s)) as Hret.
  { unfold filterAddresses.
    rewrite decide_False
      by (destruct (TopologicalPref (availableEndpoints (et s)));
          [done | simpl; lia]).
    rewrite <-(app_nil_r (TopologicalPref (availableEndpoints (et s)))).
    by rewrite filterLoop_skip. }
  split; [done|]. unfold filteredAddrs. rewrite Hret.
  apply (deref_app_new (heap s) ∅ []).
Qed.

(** Against an empty filtered set, [diffEndpoints] adds nothing and removes
    the whole of the snapshot it reads. *)
Lemma diffAddrs_empty (filtered : AddressSet) (s : TranslatorState) :
  deref (heap s) (Addresses filtered) = ∅ →
  diffAddrs filtered s = (∅, snapshotAddrs s).
Proof.
  intros Hempty. rewrite diffAddrs_filter, Hempty, map_filter_empty.
  f_equal. apply map_filter_id. intros id address _. apply lookup_empty.
Qed.

(** C5, at the input on which the code departs from it.  A client without
    node topology is sent web-1 by an Add under the wildcard; the snapshot
    then holds web-1 and is the very map of the available endpoints.  The
    Remove of web-1 under preference [zone] reaches the case in which no
    tier matches: the filter returns the empty set.  But the deletion has
    already emptied the map the snapshot shares, so the diff removes
    nothing, no message is sent, and web-1 is never withdrawn. *)
Theorem no_match_after_wildcard :
  stream (et afterWildcardAdd)
  = [Update_Add
       [mkWeightedAddr (mkTcpAddress 167772161%N 8080%N) defaultWeight ∅
          None None None] ∅]
  ∧ snapshotAddrs afterWildcardAdd = {[ web1 := inZoneA ]}
  ∧ Addresses (filteredSnapshot (et afterWildcardAdd))
    = Addresses (availableEndpoints (et afterWildcardAdd))
  ∧ filteredAddrs afterZoneRemove = ∅
  ∧ stream (et afterZoneRemove) = stream (et afterWildcardAdd).
Proof. compute_done. Qed.

(** The sharing needs no change of preference to show.  Under the
    preference [zone, *] a client in zone a is sent web-2 of zone b through
    the wildcard; the Remove of web-2 under the same preference empties the
    shared map, the filter returns that map again, and the diff of a map
    against itself is empty: no remove message is sent. *)
Example wildcard_remove_is_silent :
  let added :=
    run sampleExternals
      [CallAdd {[ web2 := inZoneB ]} ∅ [LabelZoneFailureDomainStable; "*"]]
      clientInZoneA in
  let removed :=
    perform sampleExternals
      (CallRemove {[ web2 := inZoneB ]} ∅ [LabelZoneFailureDomainStable; "*"])
      added in
  stream (et added)
  = [Update_Add
       [mkWeightedAddr (mkTcpAddress 167772162%N 8080%N) defaultWeight ∅
          None None None] ∅]
  ∧ availableAddrs removed = ∅
  ∧ stream (et removed) = stream (et added).
Proof. cbv zeta. compute_done. Qed.

(** Without sharing the same two calls do send the removal: under the
    preference [zone] alone, for an endpoint of the client's zone. *)
Example zone_remove_is_sent :
  stream (et (perform sampleExternals
                (CallRemove {[ web1 := inZoneA ]} ∅
                   [LabelZoneFailureDomainStable])
                zonePreferred))
  = [Update_Add
       [mkWeightedAddr (mkTcpAddress 167772161%N 8080%N) defaultWeight ∅
          None None None] ∅;
     Update_Remove [mkTcpAddress 167772161%N 8080%N]].
Proof. compute_done. Qed.

(** ** NoEndpoints *)

(** C6.  From every state and for either value of the flag, [NoEndpoints]
    leaves both the available endpoints and the snapshot with an empty
    address map, each a new map of its own, and sends exactly one message,
    the NoEndpoints message with that flag. *)
Theorem no_endpoints_reset (svcExists : bool) (s : TranslatorState) :
  availableAddrs (NoEndpoints svcExists s) = ∅
  ∧ snapshotAddrs (NoEndpoints svcExists s) = ∅
  ∧ stream (et (NoEndpoints svcExists s))
    = stream (et s) ++ [Update_NoEndpoints svcExists]
  ∧ Addresses (availableEndpoints (et (NoEndpoints svcExists s)))
    ≠ Addresses (filteredSnapshot (et (NoEndpoints svcExists s))).
Proof.
  unfold availableAddrs, snapshotAddrs, NoEndpoints. simpl.
  repeat split.
  - rewrite deref_app_old by (rewrite length_app; simpl; lia).
    apply (deref_app_new (heap s) ∅ []).
  - apply (deref_app_new (heap s ++ [∅]) ∅ []).
  - rewrite length_app. simpl. lia.
Qed.

(** ** Wire translation *)

(** C7.  For an endpoint with a pod whose address parses, the weighted
    address carries a derived identity exactly when the trust domain is not
    empty, the control-plane namespace label of the pod equals the
    namespace of this controller and the identity-mode annotation of the
    pod is the default mode; the identity then is
    [<sa>.<ns>.serviceaccount.identity.<controller-ns>.<trust-domain>].  It
    carries the H2 hint exactly when upgrade is enabled and the pod has a
    control-plane namespace label at all.  Neither condition implies the
    other: as soon as some address parses there is an endpoint translated
    with the hint and without identity, and one translated with identity
    and without the hint. *)
Theorem identity_and_hint_gating (ext : Externals) :
  (∀ (e : endpointTranslator) (address : Address) (pod : Pod)
     (tcpAddr : TcpAddress),
     AddrPod address = Some pod →
     toAddr ext address = Ok tcpAddr →
     ∃ wa : WeightedAddr,
       translateAdd ext e address = Ok wa
       ∧ Addr wa = tcpAddr
       ∧ (is_Some (WaTlsIdentity wa)
          ↔ identityTrustDomain e ≠ ""
            ∧ index (PodLabels pod) (k8s_ControllerNSLabel ext)
              = controllerNS e
            ∧ index (PodAnnotations pod) (k8s_IdentityModeAnnotation ext)
              = k8s_IdentityModeDefault ext)
       ∧ (∀ name : string,
            WaTlsIdentity wa = Some (DnsLikeIdentity name) →
            name
            = identityName (k8s_GetServiceAccountAndNS ext pod).1
                (k8s_GetServiceAccountAndNS ext pod).2
                (controllerNS e) (identityTrustDomain e))
       ∧ (is_Some (WaProtocolHint wa)
          ↔ enableH2Upgrade e = true
            ∧ index (PodLabels pod) (k8s_ControllerNSLabel ext) ≠ ""))
  ∧ (∀ (ip : string) (parsed : IPAddress),
       addr_ParseProxyIPV4 ext ip = Ok parsed →
       (∃ (e : endpointTranslator) (address : Address) (wa : WeightedAddr),
          is_Some (AddrPod address)
          ∧ translateAdd ext e address = Ok wa
          ∧ is_Some (WaProtocolHint wa) ∧ WaTlsIdentity wa = None)
       ∧ (∃ (e : endpointTranslator) (address : Address) (wa : WeightedAddr),
            is_Some (AddrPod address)
            ∧ translateAdd ext e address = Ok wa
            ∧ is_Some (WaTlsIdentity wa) ∧ WaProtocolHint wa = None)).
Proof.
  split.
  - intros e address pod tcpAddr Hpod Haddr.
    unfold translateAdd, toWeightedAddr. rewrite Hpod.
    destruct (k8s_GetServiceAccountAndNS ext pod) as [sa ns] eqn:Hsa.
    rewrite Haddr. eexists. split; [reflexivity|]. simpl.
    split; [done|]. split; [|split].
    + destruct (bool_decide (identityTrustDomain e ≠ "")) eqn:H1;
        destruct (bool_decide (index (PodLabels pod)
                                 (k8s_ControllerNSLabel ext)
                               = controllerNS e)) eqn:H2;
        destruct (bool_decide (index (PodAnnotations pod)
                                 (k8s_IdentityModeAnnotation ext)
                               = k8s_IdentityModeDefault ext)) eqn:H3;
        simpl;
        try apply bool_decide_eq_true in H1;
        try apply bool_decide_eq_true in H2;
        try apply bool_decide_eq_true in H3;
        try apply bool_decide_eq_false in H1;
        try apply bool_decide_eq_false in H2;
        try apply bool_decide_eq_false in H3;
        split; try (intros [? ?]; discriminate); try (by eauto);
        intros (? & ? & ?); contradiction.
    + intros name.
      destruct (bool_decide (identityTrustDomain e ≠ "")); simpl;
        [|discriminate].
      destruct (bool_decide (index (PodLabels pod)
                               (k8s_ControllerNSLabel ext)
                             = controllerNS e)) eqn:H2; simpl;
        [|discriminate].
      apply bool_decide_eq_true in H2.
      destruct (bool_decide _); simpl; [|discriminate].
      intros [= <-]. by rewrite H2.
    + destruct (enableH2Upgrade e);
        destruct (bool_decide (index (PodLabels pod)
                                 (k8s_ControllerNSLabel ext) ≠ "")) eqn:H1;
        simpl;
        try apply bool_decide_eq_true in H1;
        try apply bool_decide_eq_false in H1;
        split; try (intros [? ?]; discriminate); try (by eauto);
        intros [? ?]; try discriminate; contradiction.
  - intros ip parsed Hparse. split.
    + pose (pod := mkPod "ns" "sa"
                     {[ k8s_ControllerNSLabel ext := "other-mesh" ]} ∅).
      destruct (k8s_GetServiceAccountAndNS ext pod) as [sa ns] eqn:Hsa.
      exists (mkEndpointTranslator "linkerd" "" true ∅
                (mkAddressSet 0 ∅ []) (mkAddressSet 1 ∅ []) []).
      exists (mkAddress ip 80 (Some pod) "" "" "" "" ∅).
      eexists. split; [by eexists|].
      unfold translateAdd, toWeightedAddr, toAddr. simpl.
      rewrite Hsa, Hparse. split; [reflexivity|]. simpl.
      unfold index. rewrite lookup_singleton_eq. simpl.
      split; [by eexists | done].
    + pose (pod := mkPod "ns" "sa"
                     {[ k8s_ControllerNSLabel ext := "linkerd" ]}
                     {[ k8s_IdentityModeAnnotation ext
                        := k8s_IdentityModeDefault ext ]}).
      destruct (k8s_GetServiceAccountAndNS ext pod) as [sa ns] eqn:Hsa.
      exists (mkEndpointTranslator "linkerd" "cluster.local" false ∅
                (mkAddressSet 0 ∅ []) (mkAddressSet 1 ∅ []) []).
      exists (mkAddress ip 80 (Some pod) "" "" "" "" ∅).
      eexists. split; [by eexists|].
      unfold translateAdd, toWeightedAddr, toAddr. simpl.
      rewrite Hsa, Hparse. split; [reflexivity|]. simpl.
      unfold index. rewrite !lookup_singleton_eq. simpl.
      rewrite !bool_decide_eq_true_2 by done. simpl.
      split; [by eexists | done].
Qed.

Lemma identity_and_hint_gating_witness :
  AddrPod meshed = Some meshedPod
  ∧ toAddr sampleExternals meshed = Ok (mkTcpAddress 167772163%N 8080%N)
  ∧ ∃ wa : WeightedAddr,
      translateAdd sampleExternals (et clientInZoneA) meshed = Ok wa
      ∧ WaTlsIdentity wa
        = Some (DnsLikeIdentity
                  "web.emojivoto.serviceaccount.identity.linkerd.cluster.local")
      ∧ WaProtocolHint wa = Some H2.
Proof.
  assert (toAddr sampleExternals meshed
          = Ok (mkTcpAddress 167772163%N 8080%N)) as Haddr
    by (vm_compute; reflexivity).
  split; [reflexivity|]. split; [exact Haddr|].
  destruct (proj1 (identity_and_hint_gating sampleExternals)
              (et clientInZoneA) meshed meshedPod
              (mkTcpAddress 167772163%N 8080%N) eq_refl Haddr)
    as (wa & Hwa & _).
  exists wa. split; [exact Hwa|].
  vm_compute in Hwa. injection Hwa as <-. split; reflexivity.
Defined.

(** C8, as amended.  For an endpoint without pod whose address parses, the
    weighted address has the default weight and no metric labels, carries
    the authority override exactly when the override string is not empty,
    carries the endpoint's own identity string exactly when that string is
    not empty, and carries the H2 hint exactly when upgrade is enabled and
    the identity string is not empty: without identity there is no hint. *)
Theorem bare_endpoint_translation (ext : Externals) (e : endpointTranslator)
    (address : Address) (tcpAddr : TcpAddress) :
  AddrPod address = None →
  toAddr ext address = Ok tcpAddr →
  ∃ wa : WeightedAddr,
    translateAdd ext e address = Ok wa
    ∧ Addr wa = tcpAddr
    ∧ Weight wa = defaultWeight
    ∧ MetricLabels wa = ∅
    ∧ WaAuthorityOverride wa
      = (if decide (AuthorityOverride address = "") then None
         else Some (AuthorityOverride address))
    ∧ WaTlsIdentity wa
      = (if decide (Identity address = "") then None
         else Some (DnsLikeIdentity (Identity address)))
    ∧ (WaProtocolHint wa = Some H2
       ↔ enableH2Upgrade e = true ∧ Identity address ≠ "").
Proof.
  intros Hpod Haddr. unfold translateAdd. rewrite Hpod, Haddr.
  destruct (decide (Identity address = "")) as [Hid|Hid].
  - rewrite bool_decide_eq_false_2 by (intros Hne; by destruct Hne).
    eexists. split; [reflexivity|]. simpl. repeat split; try done.
    + destruct (decide (AuthorityOverride address = "")) as [Ho|Ho].
      * by rewrite bool_decide_eq_false_2 by (intros Hne; by destruct Hne).
      * by rewrite bool_decide_eq_true_2.
    + by intros [_ Hne].
  - rewrite bool_decide_eq_true_2 by done.
    assert ((if bool_decide (AuthorityOverride address ≠ "")
             then Some (AuthorityOverride address) else None)
            = (if decide (AuthorityOverride address = "") then None
               else Some (AuthorityOverride address))) as Hover.
    { destruct (decide (AuthorityOverride address = "")) as [Ho|Ho].
      - by rewrite bool_decide_eq_false_2 by (intros Hne; by destruct Hne).
      - by rewrite bool_decide_eq_true_2. }
    destruct (enableH2Upgrade e); eexists;
      (split; [reflexivity|]); simpl; repeat split; try done.
    by intros [Hup _].
Qed.

Lemma bare_endpoint_translation_witness :
  AddrPod inZoneA = None
  ∧ toAddr sampleExternals inZoneA = Ok (mkTcpAddress 167772161%N 8080%N)
  ∧ ∃ wa : WeightedAddr,
      translateAdd sampleExternals (et clientInZoneA) inZoneA = Ok wa
      ∧ Weight wa = 10000%N
      ∧ WaTlsIdentity wa = None
      ∧ WaProtocolHint wa = None.
Proof.
  assert (toAddr sampleExternals inZoneA
          = Ok (mkTcpAddress 167772161%N 8080%N)) as Haddr
    by (vm_compute; reflexivity).
  split; [reflexivity|]. split; [exact Haddr|].
  destruct (bare_endpoint_translation sampleExternals (et clientInZoneA)
              inZoneA (mkTcpAddress 167772161%N 8080%N) eq_refl Haddr)
    as (wa & Hwa & _ & Hweight & _ & _ & Hid & Hhint).
  exists wa. split; [exact Hwa|]. split; [exact Hweight|].
  split; [exact Hid|].
  destruct (WaProtocolHint wa) as [[]|]; [|reflexivity].
  destruct (proj1 Hhint eq_refl) as [_ Hne]. by destruct Hne.
Defined.

(** The sentence as the specification has it fails on an endpoint without
    identity: with upgrade enabled, the endpoint in zone a is translated
    without the hint. *)
Lemma bare_hint_counterexample :
  ¬ bare_hint_as_stated sampleExternals (et clientInZoneA) inZoneA.
Proof.
  intros Hclaim.
  assert (translateAdd sampleExternals (et clientInZoneA) inZoneA
          = Ok (mkWeightedAddr (mkTcpAddress 167772161%N 8080%N)
                  defaultWeight ∅ None None None)) as Hwa
    by (vm_compute; reflexivity).
  specialize (Hclaim _ eq_refl Hwa eq_refl). discriminate Hclaim.
Qed.

(** ** Translation failures *)

Lemma foldl_append_ok {A B : Type} (f : A → result B) (l : list A)
    (acc : list B) :
  foldl (λ addrs entry,
           match f entry with
           | Err _ => addrs
           | Ok b => addrs ++ [b]
           end) acc l
  = acc ++ omap (λ entry, okValue (f entry)) l.
Proof.
  revert acc. induction l as [|a l IH]; intros acc; simpl.
  - by rewrite app_nil_r.
  - rewrite IH. destruct (f a); simpl; [|done]. by rewrite <-(assoc_L (++)).
Qed.

Lemma collectAdds_omap (ext : Externals) (e : endpointTranslator)
    (m : gmap ID Address) :
  collectAdds ext e m
  = omap (λ entry, okValue (translateAdd ext e entry.2)) (map_to_list m).
Proof.
  apply (foldl_append_ok (λ entry : ID * Address, translateAdd ext e entry.2)
           _ []).
Qed.

Lemma collectRemoves_omap (ext : Externals) (m : gmap ID Address) :
  collectRemoves ext m
  = omap (λ entry, okValue (toAddr ext entry.2)) (map_to_list m).
Proof.
  apply (foldl_append_ok (λ entry : ID * Address, toAddr ext entry.2) _ []).
Qed.

Lemma bookkeeping_sendFilteredUpdate_ext (ext1 ext2 : Externals)
    (set : AddressSet) (s : TranslatorState) :
  bookkeeping (sendFilteredUpdate ext1 set s)
  = bookkeeping (sendFilteredUpdate ext2 set s).
Proof. by rewrite !bookkeeping_sendFilteredUpdate. Qed.

(** C9.  The batch of an add message holds one weighted address for every
    endpoint of the set that translates, and nothing else; the batch of a
    remove message one address for every endpoint whose address parses: an
    endpoint that fails is left out and the others stay.  What [Add] and
    [Remove] leave in the store, in the available endpoints and in the
    snapshot does not depend on the parser, hence not on whether any
    endpoint failed to translate. *)
Theorem translation_failures_are_local :
  (∀ (ext : Externals) (set : AddressSet) (s : TranslatorState),
     stream (et (sendClientAdd ext set s))
     = stream (et s)
         ++ [Update_Add (collectAdds ext (et s)
                           (deref (heap s) (Addresses set))) (Labels set)]
     ∧ collectAdds ext (et s) (deref (heap s) (Addresses set))
       = omap (λ entry, okValue (translateAdd ext (et s) entry.2))
           (map_to_list (deref (heap s) (Addresses set)))
     ∧ ∀ wa : WeightedAddr,
         wa ∈ collectAdds ext (et s) (deref (heap s) (Addresses set))
         ↔ ∃ (id : ID) (address : Address),
             deref (heap s) (Addresses set) !! id = Some address
             ∧ translateAdd ext (et s) address = Ok wa)
  ∧ (∀ (ext : Externals) (set : AddressSet) (s : TranslatorState),
       stream (et (sendClientRemove ext set s))
       = stream (et s)
           ++ [Update_Remove (collectRemoves ext
                                (deref (heap s) (Addresses set)))]
       ∧ collectRemoves ext (deref (heap s) (Addresses set))
         = omap (λ entry, okValue (toAddr ext entry.2))
             (map_to_list (deref (heap s) (Addresses set)))
       ∧ ∀ tcpAddr : TcpAddress,
           tcpAddr ∈ collectRemoves ext (deref (heap s) (Addresses set))
           ↔ ∃ (id : ID) (address : Address),
               deref (heap s) (Addresses set) !! id = Some address
               ∧ toAddr ext address = Ok tcpAddr)
  ∧ (∀ (ext1 ext2 : Externals) (set : AddressSet) (s : TranslatorState),
       bookkeeping (Add ext1 set s) = bookkeeping (Add ext2 set s)
       ∧ bookkeeping (Remove ext1 set s) = bookkeeping (Remove ext2 set s)).
Proof.
  split; [|split].
  - intros ext set s. split; [done|]. split; [apply collectAdds_omap|].
    intros wa. rewrite collectAdds_omap, list_elem_of_omap. split.
    + intros ([id address] & Hin & Hok). simpl in Hok.
      apply elem_of_map_to_list in Hin. exists id, address.
      split; [done|]. by destruct (translateAdd ext (et s) address) as [?|?];
        simplify_eq/=.
    + intros (id & address & Hin & Hok). exists (id, address).
      split; [by apply elem_of_map_to_list|]. simpl. by rewrite Hok.
  - intros ext set s. split; [done|]. split; [apply collectRemoves_omap|].
    intros tcpAddr. rewrite collectRemoves_omap, list_elem_of_omap. split.
    + intros ([id address] & Hin & Hok). simpl in Hok.
      apply elem_of_map_to_list in Hin. exists id, address.
      split; [done|]. by destruct (toAddr ext address) as [?|?];
        simplify_eq/=.
    + intros (id & address & Hin & Hok). exists (id, address).
      split; [by apply elem_of_map_to_list|]. simpl. by rewrite Hok.
  - intros ext1 ext2 set s. split; apply bookkeeping_sendFilteredUpdate_ext.
Qed.

(** An Add of web-1 and of an endpoint whose address does not parse, without
    preference: the message carries web-1 alone, the snapshot holds both. *)
Example malformed_is_skipped :
  let s :=
    run sampleExternals
      [CallAdd {[ web1 := inZoneA; web2 := malformed ]} ∅ []] clientInZoneA in
  stream (et s)
  = [Update_Add
       [mkWeightedAddr (mkTcpAddress 167772161%N 8080%N) defaultWeight ∅
          None None None] ∅]
  ∧ snapshotAddrs s = {[ web1 := inZoneA; web2 := malformed ]}.
Proof. cbv zeta. compute_done. Qed.

(** ** A Remove that adds *)

(** C10.  There is a reachable state and a Remove, of a set none of whose
    ids is among the available endpoints, that sends an add message.  The
    client in zone a was given web-2 of zone b under preference [zone], so
    nothing was sent to it; the Remove of web-9 deletes nothing, but it
    comes with an empty preference, which the translator adopts before it
    filters again: web-2 is now selected and sent. *)
Theorem remove_can_emit_add (ext : Externals) :
  ∃ (s : TranslatorState) (addresses : gmap ID Address)
    (labels : gmap string string) (pref : list string),
    reachable ext s
    ∧ addresses ≠ ∅
    ∧ (∀ id : ID, id ∈ dom addresses → id ∉ dom (availableAddrs s))
    ∧ availableAddrs (perform ext (CallRemove addresses labels pref) s)
      = availableAddrs s
    ∧ TopologicalPref (availableEndpoints (et s)) ≠ pref
    ∧ stream (et s) = []
    ∧ stream (et (perform ext (CallRemove addresses labels pref) s))
      = [Update_Add (collectAdds ext (et s) (availableAddrs s)) labels]
    ∧ availableAddrs s = {[ web2 := inZoneB ]}.
Proof.
  exists (run ext [CallAdd {[ web2 := inZoneB ]} ∅
                     [LabelZoneFailureDomainStable]] clientInZoneA).
  exists {[ web9 := inZoneA ]}, ∅, [].
  split; [by eexists _, _, _, _, _|].
  split; [compute_done|].
  split.
  { intros id Hid. apply elem_of_dom in Hid as [address Hid].
    apply lookup_singleton_Some in Hid as [<- _]. compute_done. }
  split; [compute_done|].
  split; [compute_done|].
  split; [compute_done|].
  split; [vm_compute; reflexivity|].
  compute_done.
Qed.

(** With the sample parser the message of that Remove carries web-2. *)
Example remove_can_emit_add_sample :
  stream (et (perform sampleExternals (CallRemove {[ web9 := inZoneA ]} ∅ [])
                (run sampleExternals
                   [CallAdd {[ web2 := inZoneB ]} ∅
                      [LabelZoneFailureDomainStable]] clientInZoneA)))
  = [Update_Add
       [mkWeightedAddr (mkTcpAddress 167772162%N 8080%N) defaultWeight ∅
          None None None] ∅].
Proof. vm_compute. reflexivity. Qed.

(** * Further properties *)

(** ** The configuration is fixed *)

Lemma config_sendFilteredUpdate (ext : Externals) (set : AddressSet)
    (s : TranslatorState) :
  config (et (sendFilteredUpdate ext set s)) = config (et s).
Proof.
  unfold sendFilteredUpdate.
  destruct (filterAddresses (adoptMetadata set s)) as [filtered h2].
  destruct (diffEndpoints filtered (with_heap h2 (adoptMetadata set s)))
    as [[diffAdd diffRemove] h3].
  repeat case_decide; done.
Qed.

Lemma config_perform (ext : Externals) (c : call) (s : TranslatorState) :
  config (et (perform ext c s)) = config (et s).
Proof.
  destruct c; simpl; [| |done]; unfold Add, Remove;
    by rewrite config_sendFilteredUpdate.
Qed.

Lemma config_run (ext : Externals) (calls : list call)
    (s : TranslatorState) :
  config (et (run ext calls s)) = config (et s).
Proof.
  revert s. induction calls as [|c calls IH]; intros s; [done|].
  change (run ext (c :: calls) s) with (run ext calls (perform ext c s)).
  by rewrite IH, config_perform.
Qed.

Lemma nodeTopologyLabels_config (e e' : endpointTranslator) :
  config e = config e' → nodeTopologyLabels e = nodeTopologyLabels e'.
Proof. unfold config. congruence. Qed.

(** The translation of an endpoint reads the configuration only. *)
Lemma translateAdd_config (ext : Externals) (e e' : endpointTranslator)
    (address : Address) :
  config e = config e' →
  translateAdd ext e address = translateAdd ext e' address.
Proof.
  unfold config. intros Hcfg.
  assert (controllerNS e = controllerNS e') as Hns by congruence.
  assert (identityTrustDomain e = identityTrustDomain e') as Htd
    by congruence.
  assert (enableH2Upgrade e = enableH2Upgrade e') as Hup by congruence.
  unfold translateAdd, toWeightedAddr. by rewrite Hns, Htd, Hup.
Qed.

Lemma collectAdds_config (ext : Externals) (e e' : endpointTranslator)
    (m : gmap ID Address) :
  config e = config e' → collectAdds ext e m = collectAdds ext e' m.
Proof.
  intros Hcfg. rewrite !collectAdds_omap.
  apply list_omap_ext, Forall2_same_length_lookup. split; [done|].
  intros i x y Hx Hy. rewrite Hx in Hy. injection Hy as <-.
  by rewrite (translateAdd_config _ e e').
Qed.

(** ** The messages of the pipeline *)

(** What [sendFilteredUpdate] sends, in terms of the diff it computes. *)
Lemma stream_sendFilteredUpdate_diff (ext : Externals) (set : AddressSet)
    (s : TranslatorState) :
  let s1 := adoptMetadata set s in
  let filtered := (filterAddresses s1).1 in
  let diff := diffAddrs filtered (with_heap (filterAddresses s1).2 s1) in
  stream (et (sendFilteredUpdate ext set s))
  = stream (et s)
      ++ updateMessages ext (et s) (Labels filtered) diff.1 diff.2.
Proof.
  unfold sendFilteredUpdate, diffAddrs, updateMessages.
  destruct (filterAddresses (adoptMetadata set s)) as [filtered h2].
  cbn [fst snd].
  destruct (diffEndpoints filtered (with_heap h2 (adoptMetadata set s)))
    as [[diffAdd diffRemove] h3] eqn:Hdiff.
  assert (Labels diffAdd = Labels filtered) as Hlabels.
  { unfold diffEndpoints in Hdiff. simpl in Hdiff. by injection Hdiff as <- _ _. }
  cbn [fst snd]. simpl.
  destruct (decide (0 < size (deref h3 (Addresses diffAdd)))) as [Ha|Ha];
    simpl;
    destruct (decide (0 < size (deref h3 (Addresses diffRemove))))
      as [Hr|Hr];
    simpl; rewrite ?Hlabels, ?app_nil_r, <-?(assoc_L (++)); try done;
    by rewrite (collectAdds_config ext _ (et s)).
Qed.

Lemma filterAddresses_labels (s : TranslatorState) :
  Labels (filterAddresses s).1 = Labels (availableEndpoints (et s))
  ∨ filteredAddrs s = ∅.
Proof.
  unfold filteredAddrs, filterAddresses, newEmptyAddressSet.
  case_decide; simpl; [by left|].
  destruct (filterLoop _ _ _ _); simpl; [by left | by left |].
  right. apply (deref_app_new (heap s) ∅ []).
Qed.

Lemma updateMessages_no_add (ext : Externals) (e : endpointTranslator)
    (labels labels' : gmap string string) (toRemove : gmap ID Address) :
  updateMessages ext e labels ∅ toRemove
  = updateMessages ext e labels' ∅ toRemove.
Proof.
  unfold updateMessages. rewrite map_size_empty.
  by rewrite decide_False by lia.
Qed.

(** What [sendFilteredUpdate] sends from a well-formed state: the diff of
    the filtered view against the snapshot it finds. *)
Lemma stream_sendFilteredUpdate (ext : Externals) (set : AddressSet)
    (s : TranslatorState) :
  wf s →
  let view :=
    filteredView (nodeTopologyLabels (et s)) (TopologicalPref set)
      (availableAddrs s) in
  stream (et (sendFilteredUpdate ext set s))
  = stream (et s)
      ++ updateMessages ext (et s) (Labels set)
           (pendingAdd view (snapshotAddrs s))
           (pendingRemove view (snapshotAddrs s)).
Proof.
  intros Hwf view. rewrite stream_sendFilteredUpdate_diff.
  rewrite diffAddrs_filter. cbn [fst snd].
  pose proof (filteredAddrs_view (adoptMetadata set s)) as Hview.
  pose proof (filterAddresses_labels (adoptMetadata set s)) as Hlabels.
  pose proof (filterAddresses_store (adoptMetadata set s)) as [hf Hhf].
  unfold filteredAddrs in Hview, Hlabels.
  destruct (filterAddresses (adoptMetadata set s)) as [filtered h2].
  cbn [fst snd] in *.
  assert (deref h2 (Addresses filtered) = view) as Hv by exact Hview.
  change (deref (heap (with_heap h2 (adoptMetadata set s)))
            (Addresses filtered)) with (deref h2 (Addresses filtered)).
  rewrite Hv.
  assert (snapshotAddrs (with_heap h2 (adoptMetadata set s))
          = snapshotAddrs s) as ->.
  { unfold snapshotAddrs. simpl. rewrite Hhf. apply deref_app_old, Hwf. }
  f_equal. fold (pendingAdd view (snapshotAddrs s)).
  fold (pendingRemove view (snapshotAddrs s)).
  destruct Hlabels as [->|Hempty]; [done|].
  assert (view = ∅) as -> by (by rewrite <-Hv).
  assert (pendingAdd ∅ (snapshotAddrs s) = ∅) as ->
    by apply map_filter_empty.
  apply updateMessages_no_add.
Qed.

(** ** The exits of the preference loop *)

(** Whatever the list, the loop entered with an empty [filtered] leaves
    through the wildcard, or with the matches of one tier of the list, which
    are not empty, or at the end of the list. *)
Lemma filterLoop_exit (node : gmap string string) (avail : gmap ID Address)
    (prefs : list string) :
  filterLoop node avail prefs ∅ = ExitWildcard ∧ "*" ∈ prefs
  ∨ (∃ t, t ∈ prefs ∧ t ≠ "*" ∧ tierMatches node avail t ≠ ∅
          ∧ filterLoop node avail prefs ∅
            = ExitFiltered (tierMatches node avail t))
  ∨ filterLoop node avail prefs ∅ = ExitNone
    ∧ Forall (λ p, p ≠ "*" ∧ tierMatches node avail p = ∅) prefs.
Proof.
  induction prefs as [|p prefs IH].
  - right. right. split; [done | constructor].
  - rewrite filterLoop_cons.
    destruct (decide (p = "*")) as [->|Hp].
    { left. split; [done | by left]. }
    destruct (decide (tierMatches node avail p = ∅)) as [Hnone|Hsome].
    + destruct IH as [[-> Hin]|[(t & Hin & Ht & Hsome & ->)|[-> Hall]]].
      * left. split; [done | by right].
      * right. left. exists t. repeat split; try done. by right.
      * right. right. split; [done|]. by constructor.
    + right. left. exists p. repeat split; try done. by left.
Qed.

Lemma filteredView_empty (node : gmap string string) (prefs : list string) :
  filteredView node prefs ∅ = ∅.
Proof.
  unfold filteredView. destruct prefs as [|p prefs]; [done|].
  destruct (filterLoop_exit node ∅ (p :: prefs))
    as [[-> _]|[(t & _ & _ & Hsome & _)|[-> _]]]; try done.
  destruct Hsome. unfold tierMatches.
  destruct (node !! t); [apply map_filter_empty | done].
Qed.

Lemma filteredView_subseteq (node : gmap string string)
    (prefs : list string) (avail : gmap ID Address) :
  filteredView node prefs avail ⊆ avail.
Proof.
  unfold filteredView. destruct prefs as [|p prefs]; [done|].
  destruct (filterLoop_exit node avail (p :: prefs))
    as [[-> _]|[(t & _ & _ & _ & ->)|[-> _]]]; try done.
  - unfold tierMatches. destruct (node !! t).
    + apply map_filter_subseteq.
    + apply map_empty_subseteq.
  - apply map_empty_subseteq.
Qed.

(** ** NoEndpoints, once more *)

Lemma addrs_NoEndpoints (svcExists : bool) (s : TranslatorState) :
  availableAddrs (NoEndpoints svcExists s) = ∅
  ∧ snapshotAddrs (NoEndpoints svcExists s) = ∅.
Proof.
  unfold availableAddrs, snapshotAddrs, NoEndpoints. simpl. split.
  - rewrite deref_app_old by (rewrite length_app; simpl; lia).
    apply (deref_app_new (heap s) ∅ []).
  - apply (deref_app_new (heap s ++ [∅]) ∅ []).
Qed.

(** ** Pending sets *)

Lemma pending_empty_iff (view snapshot : gmap ID Address) :
  pendingAdd view snapshot = ∅ ∧ pendingRemove view snapshot = ∅
  ↔ dom view = dom snapshot.
Proof.
  unfold pendingAdd, pendingRemove. rewrite !map_empty_filter.
  unfold map_Forall. simpl. split.
  - intros [Hadd Hremove]. apply set_eq. intros id.
    rewrite !elem_of_dom. split; intros [address Hid].
    + destruct (snapshot !! id) eqn:E; [done|].
      by destruct (Hadd id address Hid).
    + destruct (view !! id) eqn:E; [done|].
      by destruct (Hremove id address Hid).
  - intros Hdom. split; intros id address Hid Hnone.
    + assert (id ∈ dom snapshot) as Hin
        by (rewrite <-Hdom; apply elem_of_dom; eauto).
      apply elem_of_dom in Hin as [? Hin]. congruence.
    + assert (id ∈ dom view) as Hin
        by (rewrite Hdom; apply elem_of_dom; eauto).
      apply elem_of_dom in Hin as [? Hin]. congruence.
Qed.

Lemma updateMessages_nil_iff (ext : Externals) (e : endpointTranslator)
    (labels : gmap string string) (toAdd toRemove : gmap ID Address) :
  updateMessages ext e labels toAdd toRemove = []
  ↔ toAdd = ∅ ∧ toRemove = ∅.
Proof.
  unfold updateMessages. split.
  - intros Hnil. apply app_eq_nil in Hnil as [Ha Hr].
    destruct (decide (0 < size toAdd)); [done|].
    destruct (decide (0 < size toRemove)); [done|].
    split; apply map_size_empty_iff; lia.
  - intros [-> ->]. rewrite map_size_empty.
    by rewrite !decide_False by lia.
Qed.

(** ** The state the pipeline starts from *)

Lemma deref_assign_ne (h : store) (l l' : loc) (m : gmap ID Address) :
  l ≠ l' → deref (assign l m h) l' = deref h l'.
Proof. intros Hl. unfold deref, assign. by rewrite list_lookup_insert_ne. Qed.

(** Writing [available] into the map of the available endpoints of a
    well-formed state, once the watcher has put its own map in the store. *)
Lemma entry_state (s : TranslatorState) (incoming available : gmap ID Address) :
  wf s →
  let s' :=
    with_heap
      (assign (Addresses (availableEndpoints (et s))) available
         (heap s ++ [incoming])) s in
  wf s'
  ∧ availableAddrs s' = available
  ∧ snapshotAddrs s' = snapshotRead s available.
Proof.
  intros [Havail Hsnap] s'. subst s'.
  unfold wf, availableAddrs, snapshotAddrs, snapshotRead. simpl.
  rewrite length_assign, length_app. simpl. split; [lia|]. split.
  - apply deref_assign_eq. rewrite length_app. lia.
  - case_decide as Hshared.
    + rewrite Hshared. apply deref_assign_eq. rewrite length_app. lia.
    + rewrite deref_assign_ne by done. by apply deref_app_old.
Qed.

Lemma perform_CallAdd (ext : Externals) (s : TranslatorState)
    (addresses : gmap ID Address) (labels : gmap string string)
    (pref : list string) :
  wf s →
  perform ext (CallAdd addresses labels pref) s
  = sendFilteredUpdate ext (mkAddressSet (length (heap s)) labels pref)
      (with_heap
         (assign (Addresses (availableEndpoints (et s)))
            (addresses ∪ availableAddrs s) (heap s ++ [addresses])) s).
Proof.
  intros [Havail _]. unfold perform, alloc, Add. simpl.
  rewrite merge_fold. rewrite (deref_app_new (heap s) addresses []).
  by rewrite deref_app_old.
Qed.

Lemma perform_CallRemove (ext : Externals) (s : TranslatorState)
    (addresses : gmap ID Address) (labels : gmap string string)
    (pref : list string) :
  wf s →
  perform ext (CallRemove addresses labels pref) s
  = sendFilteredUpdate ext (mkAddressSet (length (heap s)) labels pref)
      (with_heap
         (assign (Addresses (availableEndpoints (et s)))
            (pruned addresses (availableAddrs s)) (heap s ++ [addresses])) s).
Proof.
  intros [Havail _]. unfold perform, alloc, Remove. simpl.
  rewrite prune_fold. rewrite (deref_app_new (heap s) addresses []).
  by rewrite deref_app_old.
Qed.

(** The set the filter returns is the available set itself exactly when
    the loop leaves through the wildcard. *)
Lemma filterAddresses_shares (s : TranslatorState) :
  wf s →
  Addresses (filterAddresses s).1 = Addresses (availableEndpoints (et s))
  ↔ TopologicalPref (availableEndpoints (et s)) ≠ []
    ∧ filterLoop (nodeTopologyLabels (et s)) (availableAddrs s)
        (TopologicalPref (availableEndpoints (et s))) ∅
      = ExitWildcard.
Proof.
  intros [Havail _]. unfold filterAddresses, newEmptyAddressSet.
  destruct (TopologicalPref (availableEndpoints (et s))) as [|p prefs] eqn:Hp.
  - simpl. split; [lia | by intros [? _]].
  - rewrite decide_False by (simpl; lia).
    destruct (filterLoop _ _ _ _); simpl.
    + done.
    + split; [lia | by intros [_ ?]].
    + split; [lia | by intros [_ ?]].
Qed.

(** ** Node topology *)

Lemma keep_fold (keep : string → bool) (labels : gmap string string) :
  map_fold (λ k v acc, if keep k then <[k := v]> acc else acc) ∅ labels
  = filter (λ entry, keep entry.1 = true) labels.
Proof.
  induction labels as [|k v labels Hk Hfirst IH] using map_first_key_ind.
  - by rewrite map_fold_empty, map_filter_empty.
  - rewrite map_fold_insert_first_key by done. rewrite IH.
    destruct (keep k) eqn:Hkeep.
    + by rewrite map_filter_insert_True.
    + rewrite map_filter_insert_False by (simpl; congruence).
      by rewrite delete_id.
Qed.

Lemma getK8sNodeTopology_lookup (labels : gmap string string)
    (k v : string) :
  (getK8sNodeTopology (Ok labels)).1 !! k = Some v
  ↔ labels !! k = Some v ∧ recognized k.
Proof.
  simpl.
  rewrite (keep_fold
             (λ k, bool_decide (k = LabelHostname)
                   || bool_decide (k = LabelZoneFailureDomainStable)
                   || bool_decide (k = LabelZoneRegionStable))).
  rewrite map_lookup_filter_Some. simpl. unfold recognized.
  rewrite !orb_true_iff, !bool_decide_eq_true. tauto.
Qed.

(** X1.  From the labels of the source node [getK8sNodeTopology] keeps
    exactly the hostname, zone and region labels, each with the value the
    node has, and returns no error; when the node lookup fails it returns
    the empty topology together with the error. *)
Theorem node_topology_labels :
  (∀ (labels : gmap string string) (k v : string),
     (getK8sNodeTopology (Ok labels)).1 !! k = Some v
     ↔ labels !! k = Some v ∧ recognized k)
  ∧ (∀ labels : gmap string string,
       (getK8sNodeTopology (Ok labels)).2 = None)
  ∧ (∀ err : string, getK8sNodeTopology (Err err) = (∅, Some err)).
Proof. split; [apply getK8sNodeTopology_lookup | done]. Qed.

Lemma config_newEndpointTranslator (ext : Externals)
    (controllerNS identityTrustDomain : string) (enableH2Upgrade : bool)
    (node : result (gmap string string)) (calls : list call) :
  config
    (et (run ext calls
           (newEndpointTranslator controllerNS identityTrustDomain
              enableH2Upgrade node)))
  = (controllerNS, identityTrustDomain, enableH2Upgrade,
     (getK8sNodeTopology node).1).
Proof. rewrite config_run. by destruct node. Qed.

(** X2.  Whatever calls the watcher makes, the translator keeps the
    controller namespace, the trust domain and the upgrade flag it was made
    with, and the node topology resolved when it was made. *)
Theorem configuration_is_fixed (ext : Externals)
    (controllerNS identityTrustDomain : string) (enableH2Upgrade : bool)
    (node : result (gmap string string)) (calls : list call) :
  config
    (et (run ext calls
           (newEndpointTranslator controllerNS identityTrustDomain
              enableH2Upgrade node)))
  = (controllerNS, identityTrustDomain, enableH2Upgrade,
     (getK8sNodeTopology node).1).
Proof. apply config_newEndpointTranslator. Qed.

Lemma reachable_unrecognized (ext : Externals) (s : TranslatorState)
    (k : string) :
  reachable ext s → ¬ recognized k → nodeTopologyLabels (et s) !! k = None.
Proof.
  intros (cns & td & h2 & node & calls & ->) Hk.
  pose proof (config_newEndpointTranslator ext cns td h2 node calls) as Hcfg.
  unfold config in Hcfg.
  assert (nodeTopologyLabels
            (et (run ext calls (newEndpointTranslator cns td h2 node)))
          = (getK8sNodeTopology node).1) as -> by congruence.
  destruct node as [labels|err]; [|done].
  destruct ((getK8sNodeTopology (Ok labels)).1 !! k) as [v|] eqn:E; [|done].
  apply getK8sNodeTopology_lookup in E as [_ Hrec]. by destruct Hk.
Qed.

(** ** The filter, whatever the preference *)

(** X5.  On every state the filter returns all the available endpoints, or
    the matches of a single tier of the preference list (a tier that is not
    the wildcard and matches something), or nothing at all; whichever it
    is, every endpoint it returns is an available endpoint, with the
    attributes it has there. *)
Theorem filter_trichotomy (s : TranslatorState) :
  (filteredAddrs s = availableAddrs s
   ∨ (∃ t : string,
        t ∈ TopologicalPref (availableEndpoints (et s))
        ∧ t ≠ "*"
        ∧ filteredAddrs s
          = tierMatches (nodeTopologyLabels (et s)) (availableAddrs s) t
        ∧ filteredAddrs s ≠ ∅)
   ∨ filteredAddrs s = ∅)
  ∧ filteredAddrs s ⊆ availableAddrs s.
Proof.
  rewrite filteredAddrs_view. split; [|apply filteredView_subseteq].
  unfold filteredView.
  destruct (TopologicalPref (availableEndpoints (et s))) as [|p prefs];
    [by left|].
  destruct (filterLoop_exit (nodeTopologyLabels (et s)) (availableAddrs s)
              (p :: prefs))
    as [[-> _]|[(t & Hin & Ht & Hsome & ->)|[-> _]]].
  - by left.
  - right. left. by exists t.
  - by right; right.
Qed.

(** ** The snapshot in every reachable state *)

Lemma run_snoc (ext : Externals) (calls : list call) (c : call)
    (s : TranslatorState) :
  run ext (calls ++ [c]) s = perform ext c (run ext calls s).
Proof. unfold run. by rewrite foldl_app. Qed.

Lemma converged_perform (ext : Externals) (c : call) (s : TranslatorState) :
  wf s →
  snapshotAddrs (perform ext c s) = filteredAddrs (perform ext c s).
Proof.
  intros Hwf. destruct c as [a l p|a l p|b].
  - rewrite perform_CallAdd by done.
    apply sendFilteredUpdate_converges, entry_state, Hwf.
  - rewrite perform_CallRemove by done.
    apply sendFilteredUpdate_converges, entry_state, Hwf.
  - simpl. rewrite filteredAddrs_view.
    destruct (addrs_NoEndpoints b s) as [-> ->].
    by rewrite filteredView_empty.
Qed.

Lemma reachable_converged (ext : Externals) (s : TranslatorState) :
  reachable ext s → snapshotAddrs s = filteredAddrs s.
Proof.
  intros (cns & td & h2 & node & calls & ->).
  destruct calls as [|c calls _] using rev_ind.
  - by destruct node.
  - rewrite run_snoc.
    apply converged_perform, wf_run, wf_newEndpointTranslator.
Qed.

(** X3.  In every state the translator can reach, also the first one and
    the one after NoEndpoints, the snapshot holds exactly what the filter
    selects from the available endpoints; so every endpoint of the snapshot
    is an available endpoint. *)
Theorem snapshot_is_filtered_view (ext : Externals) (s : TranslatorState) :
  reachable ext s →
  snapshotAddrs s = filteredAddrs s ∧ snapshotAddrs s ⊆ availableAddrs s.
Proof.
  intros Hreach. split; [by apply (reachable_converged ext)|].
  rewrite (reachable_converged ext) by done.
  rewrite filteredAddrs_view. apply filteredView_subseteq.
Qed.

Lemma snapshot_is_filtered_view_witness :
  reachable sampleExternals zonePreferred
  ∧ snapshotAddrs zonePreferred = filteredAddrs zonePreferred
  ∧ snapshotAddrs zonePreferred ⊆ availableAddrs zonePreferred.
Proof.
  assert (reachable sampleExternals zonePreferred) as Hreach.
  { unfold reachable, zonePreferred, clientInZoneA. by eexists _, _, _, _, _. }
  split; [exact Hreach|].
  exact (snapshot_is_filtered_view sampleExternals zonePreferred Hreach).
Defined.

(** X4.  A tier that is none of the hostname, zone and region labels never
    selects anything: in a reachable state whose preference list is not
    empty and holds only such tiers, and no wildcard, the filter returns
    nothing and the snapshot is empty. *)
Theorem unrecognized_tiers_select_nothing (ext : Externals)
    (s : TranslatorState) :
  reachable ext s →
  TopologicalPref (availableEndpoints (et s)) ≠ [] →
  Forall (λ p, p ≠ "*" ∧ ¬ recognized p)
    (TopologicalPref (availableEndpoints (et s))) →
  filteredAddrs s = ∅ ∧ snapshotAddrs s = ∅.
Proof.
  intros Hreach Hne Hprefs.
  assert (filteredAddrs s = ∅) as Hempty.
  { apply filterAddresses_no_match; [done|].
    eapply Forall_impl; [exact Hprefs|].
    intros p [Hwild Hrec]. split; [done|].
    apply tierMatches_unknown. by apply (reachable_unrecognized ext). }
  split; [done|]. by rewrite (reachable_converged ext).
Qed.

Lemma unrecognized_tiers_select_nothing_witness :
  reachable sampleExternals osPreferred
  ∧ TopologicalPref (availableEndpoints (et osPreferred)) ≠ []
  ∧ Forall (λ p, p ≠ "*" ∧ ¬ recognized p)
      (TopologicalPref (availableEndpoints (et osPreferred)))
  ∧ filteredAddrs osPreferred = ∅
  ∧ snapshotAddrs osPreferred = ∅.
Proof.
  assert (reachable sampleExternals osPreferred) as Hreach.
  { unfold reachable, osPreferred, clientInZoneA. by eexists _, _, _, _, _. }
  assert (TopologicalPref (availableEndpoints (et osPreferred)) ≠ [])
    as Hne by compute_done.
  assert (Forall (λ p, p ≠ "*" ∧ ¬ recognized p)
            (TopologicalPref (availableEndpoints (et osPreferred))))
    as Hprefs by compute_done.
  split; [exact Hreach|]. split; [exact Hne|]. split; [exact Hprefs|].
  exact (unrecognized_tiers_select_nothing sampleExternals osPreferred
           Hreach Hne Hprefs).
Defined.

(** ** What a call of the watcher leaves and sends *)

Lemma available_perform (ext : Externals) (s : TranslatorState)
    (addresses : gmap ID Address) (labels : gmap string string)
    (pref : list string) :
  wf s →
  (availableAddrs (perform ext (CallAdd addresses labels pref) s)
   = addresses ∪ availableAddrs s
   ∧ availableEndpoints (et (perform ext (CallAdd addresses labels pref) s))
     = mkAddressSet (Addresses (availableEndpoints (et s))) labels pref)
  ∧ (availableAddrs (perform ext (CallRemove addresses labels pref) s)
     = pruned addresses (availableAddrs s)
     ∧ availableEndpoints
         (et (perform ext (CallRemove addresses labels pref) s))
       = mkAddressSet (Addresses (availableEndpoints (et s))) labels pref).
Proof.
  intros Hwf. split.
  - rewrite perform_CallAdd by done.
    destruct (entry_state s addresses (addresses ∪ availableAddrs s) Hwf)
      as (Hwf' & Havail & _).
    rewrite availableAddrs_sendFilteredUpdate by done.
    by rewrite availableEndpoints_sendFilteredUpdate.
  - rewrite perform_CallRemove by done.
    destruct (entry_state s addresses (pruned addresses (availableAddrs s))
                Hwf) as (Hwf' & Havail & _).
    rewrite availableAddrs_sendFilteredUpdate by done.
    by rewrite availableEndpoints_sendFilteredUpdate.
Qed.

Lemma pruned_disjoint (incoming available : gmap ID Address) :
  dom incoming ## dom available → pruned incoming available = available.
Proof.
  intros Hdisj. apply map_filter_id. intros id address Hid. simpl.
  destruct (incoming !! id) as [other|] eqn:E; [|done].
  destruct (Hdisj id); apply elem_of_dom; eauto.
Qed.

Lemma stream_perform (ext : Externals) (s : TranslatorState)
    (addresses : gmap ID Address) (labels : gmap string string)
    (pref : list string) :
  wf s →
  (let available := addresses ∪ availableAddrs s in
   let view := filteredView (nodeTopologyLabels (et s)) pref available in
   stream (et (perform ext (CallAdd addresses labels pref) s))
   = stream (et s)
       ++ updateMessages ext (et s) labels
            (pendingAdd view (snapshotRead s available))
            (pendingRemove view (snapshotRead s available)))
  ∧ (let available := pruned addresses (availableAddrs s) in
     let view := filteredView (nodeTopologyLabels (et s)) pref available in
     stream (et (perform ext (CallRemove addresses labels pref) s))
     = stream (et s)
         ++ updateMessages ext (et s) labels
              (pendingAdd view (snapshotRead s available))
              (pendingRemove view (snapshotRead s available))).
Proof.
  intros Hwf. split; cbn zeta.
  - rewrite perform_CallAdd by done.
    destruct (entry_state s addresses (addresses ∪ availableAddrs s) Hwf)
      as (Hwf' & Havail & Hsnap).
    rewrite stream_sendFilteredUpdate by done.
    by rewrite Havail, Hsnap.
  - rewrite perform_CallRemove by done.
    destruct (entry_state s addresses (pruned addresses (availableAddrs s))
                Hwf) as (Hwf' & Havail & Hsnap).
    rewrite stream_sendFilteredUpdate by done.
    by rewrite Havail, Hsnap.
Qed.

(** X6.  From a reachable state, an Add leaves in the available endpoints
    the incoming entries together with the entries there were, an incoming
    entry taking the place of one with the same id; the set keeps its map
    and takes the labels and the preference of the incoming set. *)
Theorem add_merges (ext : Externals) (s : TranslatorState)
    (addresses : gmap ID Address) (labels : gmap string string)
    (pref : list string) :
  reachable ext s →
  availableAddrs (perform ext (CallAdd addresses labels pref) s)
  = addresses ∪ availableAddrs s
  ∧ (∀ (id : ID) (address : Address),
       addresses !! id = Some address →
       availableAddrs (perform ext (CallAdd addresses labels pref) s) !! id
       = Some address)
  ∧ availableEndpoints (et (perform ext (CallAdd addresses labels pref) s))
    = mkAddressSet (Addresses (availableEndpoints (et s))) labels pref.
Proof.
  intros Hwf%reachable_wf.
  destruct (available_perform ext s addresses labels pref Hwf)
    as [[Havail Hset] _].
  split; [done|]. split; [|done].
  intros id address Hid. rewrite Havail. by apply lookup_union_Some_l.
Qed.

Lemma add_merges_witness :
  reachable sampleExternals zonePreferred
  ∧ availableAddrs
      (perform sampleExternals
         (CallAdd {[ web1 := inZoneB; web9 := inZoneA ]} ∅ []) zonePreferred)
    = {[ web1 := inZoneB; web2 := inZoneB; web9 := inZoneA ]}.
Proof.
  assert (reachable sampleExternals zonePreferred) as Hreach.
  { unfold reachable, zonePreferred, clientInZoneA. by eexists _, _, _, _, _. }
  split; [exact Hreach|].
  rewrite (proj1 (add_merges sampleExternals zonePreferred
                    {[ web1 := inZoneB; web9 := inZoneA ]} ∅ [] Hreach)).
  compute_done.
Defined.

(** X7.  From a reachable state, a Remove leaves in the available endpoints
    the entries whose id is not among the incoming ids, whatever attributes
    the incoming entries have; it leaves them all when no incoming id is
    known.  As with Add, the set keeps its map and takes the labels and the
    preference of the incoming set, also when nothing is deleted. *)
Theorem remove_prunes (ext : Externals) (s : TranslatorState)
    (addresses : gmap ID Address) (labels : gmap string string)
    (pref : list string) :
  reachable ext s →
  (∀ (id : ID) (address : Address),
     availableAddrs (perform ext (CallRemove addresses labels pref) s) !! id
     = Some address
     ↔ availableAddrs s !! id = Some address ∧ addresses !! id = None)
  ∧ (dom addresses ## dom (availableAddrs s) →
     availableAddrs (perform ext (CallRemove addresses labels pref) s)
     = availableAddrs s)
  ∧ availableEndpoints (et (perform ext (CallRemove addresses labels pref) s))
    = mkAddressSet (Addresses (availableEndpoints (et s))) labels pref.
Proof.
  intros Hwf%reachable_wf.
  destruct (available_perform ext s addresses labels pref Hwf)
    as [_ [Havail Hset]].
  split; [|split; [|done]].
  - intros id address. rewrite Havail. unfold pruned.
    by rewrite map_lookup_filter_Some.
  - intros Hdisj. rewrite Havail. by apply pruned_disjoint.
Qed.

Lemma remove_prunes_witness :
  reachable sampleExternals zonePreferred
  ∧ availableAddrs
      (perform sampleExternals
         (CallRemove {[ web2 := inZoneA; web9 := inZoneA ]} ∅ [])
         zonePreferred) !! web1
    = Some inZoneA
  ∧ availableAddrs
      (perform sampleExternals
         (CallRemove {[ web2 := inZoneA; web9 := inZoneA ]} ∅ [])
         zonePreferred) !! web2
    = None.
Proof.
  assert (reachable sampleExternals zonePreferred) as Hreach.
  { unfold reachable, zonePreferred, clientInZoneA. by eexists _, _, _, _, _. }
  split; [exact Hreach|]. split.
  - apply (proj1 (remove_prunes sampleExternals zonePreferred
                    {[ web2 := inZoneA; web9 := inZoneA ]} ∅ [] Hreach)).
    split; compute_done.
  - compute_done.
Defined.

(** X8.  From a reachable state, an Add or a Remove sends the diff of the
    newly filtered view against the snapshot the diff reads: first one add
    message, with the labels of the incoming set, if some id of the view is
    not in the snapshot, then one remove message if some id of the snapshot
    is not in the view, and nothing else.  The snapshot read is the one of
    before the call unless it shares the map of the available endpoints; it
    is then the available endpoints as the call has just left them. *)
Theorem update_messages (ext : Externals) (s : TranslatorState)
    (addresses : gmap ID Address) (labels : gmap string string)
    (pref : list string) :
  reachable ext s →
  (let available := addresses ∪ availableAddrs s in
   let view := filteredView (nodeTopologyLabels (et s)) pref available in
   stream (et (perform ext (CallAdd addresses labels pref) s))
   = stream (et s)
       ++ updateMessages ext (et s) labels
            (pendingAdd view (snapshotRead s available))
            (pendingRemove view (snapshotRead s available)))
  ∧ (let available := pruned addresses (availableAddrs s) in
     let view := filteredView (nodeTopologyLabels (et s)) pref available in
     stream (et (perform ext (CallRemove addresses labels pref) s))
     = stream (et s)
         ++ updateMessages ext (et s) labels
              (pendingAdd view (snapshotRead s available))
              (pendingRemove view (snapshotRead s available))).
Proof. intros Hwf%reachable_wf. by apply stream_perform. Qed.

Lemma update_messages_witness :
  reachable sampleExternals zonePreferred
  ∧ stream
      (et (perform sampleExternals
             (CallRemove {[ web1 := inZoneA ]} ∅
                [LabelZoneFailureDomainStable]) zonePreferred))
    = stream (et zonePreferred)
        ++ [Update_Remove [mkTcpAddress 167772161%N 8080%N]].
Proof.
  assert (reachable sampleExternals zonePreferred) as Hreach.
  { unfold reachable, zonePreferred, clientInZoneA. by eexists _, _, _, _, _. }
  split; [exact Hreach|].
  rewrite (proj2 (update_messages sampleExternals zonePreferred
                    {[ web1 := inZoneA ]} ∅ [LabelZoneFailureDomainStable]
                    Hreach)).
  compute_done.
Defined.

(** X9.  From a reachable state, an Add or a Remove sends nothing exactly
    when the newly filtered view has the ids of the snapshot the diff
    reads: the diff compares ids only, so a change of the attributes of an
    endpoint whose id stays in view is not sent to the client. *)
Theorem silent_iff_same_ids (ext : Externals) (s : TranslatorState)
    (addresses : gmap ID Address) (labels : gmap string string)
    (pref : list string) :
  reachable ext s →
  (let available := addresses ∪ availableAddrs s in
   let view := filteredView (nodeTopologyLabels (et s)) pref available in
   stream (et (perform ext (CallAdd addresses labels pref) s))
   = stream (et s)
   ↔ dom view = dom (snapshotRead s available))
  ∧ (let available := pruned addresses (availableAddrs s) in
     let view := filteredView (nodeTopologyLabels (et s)) pref available in
     stream (et (perform ext (CallRemove addresses labels pref) s))
     = stream (et s)
     ↔ dom view = dom (snapshotRead s available)).
Proof.
  intros Hwf%reachable_wf.
  destruct (stream_perform ext s addresses labels pref Hwf) as [Hadd Hrem].
  cbn zeta in *. split.
  - rewrite Hadd, <-pending_empty_iff, <-updateMessages_nil_iff.
    split; [|by intros ->; rewrite app_nil_r].
    intros Heq. apply (app_inv_head (stream (et s))).
    by rewrite app_nil_r.
  - rewrite Hrem, <-pending_empty_iff, <-updateMessages_nil_iff.
    split; [|by intros ->; rewrite app_nil_r].
    intros Heq. apply (app_inv_head (stream (et s))).
    by rewrite app_nil_r.
Qed.

Lemma silent_iff_same_ids_witness :
  reachable sampleExternals zonePreferred
  ∧ stream
      (et (perform sampleExternals
             (CallAdd {[ web1 := inZoneA; web9 := inZoneB ]} ∅
                [LabelZoneFailureDomainStable]) zonePreferred))
    = stream (et zonePreferred).
Proof.
  assert (reachable sampleExternals zonePreferred) as Hreach.
  { unfold reachable, zonePreferred, clientInZoneA. by eexists _, _, _, _, _. }
  split; [exact Hreach|].
  apply (proj1 (silent_iff_same_ids sampleExternals zonePreferred
                  {[ web1 := inZoneA; web9 := inZoneB ]} ∅
                  [LabelZoneFailureDomainStable] Hreach)).
  compute_done.
Defined.

Lemma pending_self (view : gmap ID Address) :
  pendingAdd view view = ∅ ∧ pendingRemove view view = ∅.
Proof. by apply pending_empty_iff. Qed.

Lemma pruned_idemp (incoming available : gmap ID Address) :
  pruned incoming (pruned incoming available) = pruned incoming available.
Proof.
  apply map_filter_id. intros id address Hid.
  by apply map_lookup_filter_Some in Hid as [_ Hnone].
Qed.

Lemma snapshotRead_self (s : TranslatorState) :
  snapshotRead s (availableAddrs s) = snapshotAddrs s.
Proof.
  unfold snapshotRead, availableAddrs, snapshotAddrs.
  case_decide as Hshared; [by rewrite Hshared | done].
Qed.

Lemma repeated_perform (ext : Externals) (s : TranslatorState)
    (addresses : gmap ID Address) (labels : gmap string string)
    (pref : list string) :
  wf s →
  stream (et (perform ext (CallAdd addresses labels pref)
                (perform ext (CallAdd addresses labels pref) s)))
  = stream (et (perform ext (CallAdd addresses labels pref) s))
  ∧ stream (et (perform ext (CallRemove addresses labels pref)
                  (perform ext (CallRemove addresses labels pref) s)))
    = stream (et (perform ext (CallRemove addresses labels pref) s)).
Proof.
  intros Hwf. split.
  - set (s1 := perform ext (CallAdd addresses labels pref) s).
    assert (wf s1) as Hwf1 by by apply wf_perform.
    destruct (available_perform ext s addresses labels pref Hwf)
      as [[Havail Hset] _]. fold s1 in Havail, Hset.
    pose proof (converged_perform ext (CallAdd addresses labels pref) s Hwf)
      as Hconv. fold s1 in Hconv.
    rewrite filteredAddrs_view, Hset in Hconv. simpl in Hconv.
    rewrite (proj1 (stream_perform ext s1 addresses labels pref Hwf1)).
    assert (addresses ∪ availableAddrs s1 = availableAddrs s1) as ->.
    { rewrite Havail, (assoc_L (∪)). by rewrite (idemp_L (∪)). }
    rewrite snapshotRead_self, <-Hconv.
    destruct (pending_self (snapshotAddrs s1)) as [-> ->].
    unfold updateMessages. rewrite map_size_empty.
    rewrite !decide_False by lia. by rewrite app_nil_r.
  - set (s1 := perform ext (CallRemove addresses labels pref) s).
    assert (wf s1) as Hwf1 by by apply wf_perform.
    destruct (available_perform ext s addresses labels pref Hwf)
      as [_ [Havail Hset]]. fold s1 in Havail, Hset.
    pose proof (converged_perform ext (CallRemove addresses labels pref) s
                  Hwf) as Hconv. fold s1 in Hconv.
    rewrite filteredAddrs_view, Hset in Hconv. simpl in Hconv.
    rewrite (proj2 (stream_perform ext s1 addresses labels pref Hwf1)).
    assert (pruned addresses (availableAddrs s1) = availableAddrs s1) as ->.
    { rewrite Havail. apply pruned_idemp. }
    rewrite snapshotRead_self, <-Hconv.
    destruct (pending_self (snapshotAddrs s1)) as [-> ->].
    unfold updateMessages. rewrite map_size_empty.
    rewrite !decide_False by lia. by rewrite app_nil_r.
Qed.

(** X10.  From a reachable state, an Add made a second time with the same
    addresses, labels and preference sends nothing more, and so does a
    Remove made a second time. *)
Theorem repeated_call_is_silent (ext : Externals) (s : TranslatorState)
    (addresses : gmap ID Address) (labels : gmap string string)
    (pref : list string) :
  reachable ext s →
  stream (et (perform ext (CallAdd addresses labels pref)
                (perform ext (CallAdd addresses labels pref) s)))
  = stream (et (perform ext (CallAdd addresses labels pref) s))
  ∧ stream (et (perform ext (CallRemove addresses labels pref)
                  (perform ext (CallRemove addresses labels pref) s)))
    = stream (et (perform ext (CallRemove addresses labels pref) s)).
Proof. intros Hwf%reachable_wf. by apply repeated_perform. Qed.

Lemma repeated_call_is_silent_witness :
  reachable sampleExternals clientInZoneA
  ∧ stream (et (run sampleExternals
                  [CallAdd {[ web1 := inZoneA ]} ∅ [];
                   CallAdd {[ web1 := inZoneA ]} ∅ []] clientInZoneA))
    = [Update_Add
         [mkWeightedAddr (mkTcpAddress 167772161%N 8080%N) defaultWeight ∅
            None None None] ∅].
Proof.
  assert (reachable sampleExternals clientInZoneA) as Hreach.
  { unfold reachable, clientInZoneA. by eexists _, _, _, _, []. }
  split; [exact Hreach|].
  change (run sampleExternals
            [CallAdd {[ web1 := inZoneA ]} ∅ [];
             CallAdd {[ web1 := inZoneA ]} ∅ []] clientInZoneA)
    with (perform sampleExternals (CallAdd {[ web1 := inZoneA ]} ∅ [])
            (perform sampleExternals (CallAdd {[ web1 := inZoneA ]} ∅ [])
               clientInZoneA)).
  rewrite (proj1 (repeated_call_is_silent sampleExternals clientInZoneA
                    {[ web1 := inZoneA ]} ∅ [] Hreach)).
  compute_done.
Defined.

(** ** Sharing *)

Lemma shares_after_sendFilteredUpdate (ext : Externals) (set : AddressSet)
    (s : TranslatorState) :
  wf s →
  Addresses (filteredSnapshot (et (sendFilteredUpdate ext set s)))
  = Addresses (availableEndpoints (et (sendFilteredUpdate ext set s)))
  ↔ TopologicalPref set ≠ []
    ∧ filterLoop (nodeTopologyLabels (et s)) (availableAddrs s)
        (TopologicalPref set) ∅
      = ExitWildcard.
Proof.
  intros Hwf.
  pose proof (bookkeeping_sendFilteredUpdate ext set s) as Hbook.
  unfold bookkeeping in Hbook. cbn zeta in Hbook.
  injection Hbook as _ -> ->.
  apply (filterAddresses_shares (adoptMetadata set s)).
  by apply wf_adoptMetadata.
Qed.

(** X11.  After an Add or a Remove from a reachable state, the snapshot and
    the available endpoints hold one and the same map exactly when the
    preference of the call is not empty and the filter left through the
    wildcard; in every other case the snapshot has a map of its own. *)
Theorem sharing_iff_wildcard (ext : Externals) (s : TranslatorState)
    (addresses : gmap ID Address) (labels : gmap string string)
    (pref : list string) :
  reachable ext s →
  (let s' := perform ext (CallAdd addresses labels pref) s in
   Addresses (filteredSnapshot (et s'))
   = Addresses (availableEndpoints (et s'))
   ↔ pref ≠ []
     ∧ filterLoop (nodeTopologyLabels (et s))
         (addresses ∪ availableAddrs s) pref ∅
       = ExitWildcard)
  ∧ (let s' := perform ext (CallRemove addresses labels pref) s in
     Addresses (filteredSnapshot (et s'))
     = Addresses (availableEndpoints (et s'))
     ↔ pref ≠ []
       ∧ filterLoop (nodeTopologyLabels (et s))
           (pruned addresses (availableAddrs s)) pref ∅
         = ExitWildcard).
Proof.
  intros Hwf%reachable_wf. cbn zeta. split.
  - rewrite perform_CallAdd by done.
    destruct (entry_state s addresses (addresses ∪ availableAddrs s) Hwf)
      as (Hwf' & Havail & _).
    rewrite shares_after_sendFilteredUpdate by done. by rewrite Havail.
  - rewrite perform_CallRemove by done.
    destruct (entry_state s addresses (pruned addresses (availableAddrs s))
                Hwf) as (Hwf' & Havail & _).
    rewrite shares_after_sendFilteredUpdate by done. by rewrite Havail.
Qed.

Lemma sharing_iff_wildcard_witness :
  reachable sampleExternals clientInZoneA
  ∧ Addresses (filteredSnapshot (et zoneThenWildcard))
    = Addresses (availableEndpoints (et zoneThenWildcard))
  ∧ Addresses (filteredSnapshot (et zonePreferred))
    ≠ Addresses (availableEndpoints (et zonePreferred)).
Proof.
  assert (reachable sampleExternals clientInZoneA) as Hreach.
  { unfold reachable, clientInZoneA. by eexists _, _, _, _, []. }
  split; [exact Hreach|]. split.
  - apply (proj1 (sharing_iff_wildcard sampleExternals clientInZoneA
                    {[ web2 := inZoneB ]} ∅
                    [LabelZoneFailureDomainStable; "*"] Hreach)).
    split; compute_done.
  - intros Hshared.
    apply (proj1 (sharing_iff_wildcard sampleExternals clientInZoneA
                    {[ web1 := inZoneA; web2 := inZoneB ]} ∅
                    [LabelZoneFailureDomainStable] Hreach)) in Hshared
      as [_ Hexit].
    vm_compute in Hexit. discriminate Hexit.
Defined.

(** ** Translation *)

(** What [translateAdd] returns, read off the result of the parser. *)
Lemma translateAdd_parse (ext : Externals) (e : endpointTranslator)
    (address : Address) :
  match addr_ParseProxyIPV4 ext (IP address) with
  | Err err => translateAdd ext e address = Err err
  | Ok ip =>
      ∃ wa : WeightedAddr,
        translateAdd ext e address = Ok wa
        ∧ Addr wa = mkTcpAddress ip (Port address)
        ∧ Weight wa = defaultWeight
  end.
Proof.
  unfold translateAdd, toWeightedAddr, toAddr.
  destruct (AddrPod address) as [pod|].
  - destruct (k8s_GetServiceAccountAndNS ext pod) as [sa ns].
    destruct (addr_ParseProxyIPV4 ext (IP address)) as [ip|err]; [|done].
    by eexists.
  - destruct (addr_ParseProxyIPV4 ext (IP address)) as [ip|err]; [|done].
    cbn zeta.
    destruct (bool_decide (Identity address ≠ ""));
      [destruct (enableH2Upgrade e)|]; by eexists.
Qed.

(** X12.  The translation of an endpoint, with or without pod, fails exactly
    when the parser rejects its IP, and then with the parser's error; when
    it succeeds the weighted address carries the parsed IP, the port of the
    endpoint and the default weight.  The address of a removal is the
    parsed IP with the port of the endpoint. *)
Theorem translation_fails_iff_parse_fails (ext : Externals)
    (e : endpointTranslator) (address : Address) :
  (∀ msg : string,
     translateAdd ext e address = Err msg
     ↔ addr_ParseProxyIPV4 ext (IP address) = Err msg)
  ∧ (∀ wa : WeightedAddr,
       translateAdd ext e address = Ok wa →
       ∃ ip : IPAddress,
         addr_ParseProxyIPV4 ext (IP address) = Ok ip
         ∧ Addr wa = mkTcpAddress ip (Port address)
         ∧ Weight wa = defaultWeight)
  ∧ (∀ tcpAddr : TcpAddress,
       toAddr ext address = Ok tcpAddr
       ↔ ∃ ip : IPAddress,
           addr_ParseProxyIPV4 ext (IP address) = Ok ip
           ∧ tcpAddr = mkTcpAddress ip (Port address)).
Proof.
  pose proof (translateAdd_parse ext e address) as Hshape.
  unfold toAddr.
  destruct (addr_ParseProxyIPV4 ext (IP address)) as [ip|err].
  - destruct Hshape as (wa & -> & Haddr & Hweight).
    split; [|split].
    + intros msg. split; intros [=].
    + intros wa' [= <-]. by exists ip.
    + intros tcpAddr. split.
      * intros [= <-]. by exists ip.
      * by intros (ip' & [= <-] & ->).
  - rewrite Hshape. split; [|split].
    + intros msg. split; by intros [= <-].
    + intros wa [=].
    + intros tcpAddr. split; [intros [=]|].
      by intros (ip' & ? & _).
Qed.

Lemma translation_fails_iff_parse_fails_witness :
  toAddr sampleExternals inZoneA = Ok (mkTcpAddress 167772161%N 8080%N)
  ∧ translateAdd sampleExternals (et clientInZoneA) malformed
    = Err "Invalid IP address: 10.0.0.256".
Proof.
  split.
  - apply (proj2 (proj2 (translation_fails_iff_parse_fails sampleExternals
                           (et clientInZoneA) inZoneA))).
    exists 167772161%N. split; compute_done.
  - apply (proj1 (translation_fails_iff_parse_fails sampleExternals
                    (et clientInZoneA) malformed)).
    compute_done.
Defined.

(** ** Batches *)

Lemma okValue_translateAdd (ext : Externals) (e : endpointTranslator)
    (address : Address) :
  is_Some (okValue (translateAdd ext e address)) ↔ parses ext address.
Proof.
  pose proof (translateAdd_parse ext e address) as Hshape.
  unfold parses.
  destruct (addr_ParseProxyIPV4 ext (IP address)) as [ip|err].
  - destruct Hshape as (wa & -> & _). simpl. split; by eexists.
  - rewrite Hshape. simpl. split; by intros [? ?].
Qed.

Lemma okValue_toAddr (ext : Externals) (address : Address) :
  is_Some (okValue (toAddr ext address)) ↔ parses ext address.
Proof.
  unfold parses, toAddr.
  destruct (addr_ParseProxyIPV4 ext (IP address)) as [ip|err]; simpl;
    split; intros [? ?]; try done; by eexists.
Qed.

(** Over the entries of a map, the length of what [omap] keeps is the
    size of the map filtered by what it keeps. *)
Lemma length_omap_entries {B : Type} (f : Address → option B)
    (P : Address → Prop) `{!∀ address, Decision (P address)}
    (m : gmap ID Address) :
  (∀ address, is_Some (f address) ↔ P address) →
  length (omap (λ entry : ID * Address, f entry.2) (map_to_list m))
  = size (filter (λ entry : ID * Address, P entry.2) m).
Proof.
  intros Hf.
  induction m as [|id address m Hid Hfirst IH] using map_first_key_ind.
  - by rewrite map_to_list_empty, map_filter_empty, map_size_empty.
  - rewrite map_to_list_insert_first_key by done. csimpl.
    destruct (decide (P address)) as [HP|HP].
    + rewrite map_filter_insert_True by done.
      rewrite map_size_insert_None
        by (apply map_lookup_filter_None_2; by left).
      destruct (proj2 (Hf address) HP) as [b ->]. csimpl. by rewrite IH.
    + rewrite map_filter_insert_False, delete_id by done.
      destruct (f address) as [b|] eqn:E; [|done].
      destruct HP. apply Hf. by rewrite E.
Qed.

(** X13.  The batch of an add message and the batch of a remove message
    have exactly as many entries as the set has endpoints whose address
    parses.  The message is sent all the same when no address parses: its
    batch is then empty. *)
Theorem batch_sizes (ext : Externals) (set : AddressSet)
    (s : TranslatorState) :
  let m := deref (heap s) (Addresses set) in
  length (collectAdds ext (et s) m)
  = size (filter (λ entry : ID * Address, parses ext entry.2) m)
  ∧ length (collectRemoves ext m)
    = size (filter (λ entry : ID * Address, parses ext entry.2) m)
  ∧ (map_Forall (λ _ address, ¬ parses ext address) m →
     stream (et (sendClientAdd ext set s))
     = stream (et s) ++ [Update_Add [] (Labels set)]
     ∧ stream (et (sendClientRemove ext set s))
       = stream (et s) ++ [Update_Remove []]).
Proof.
  intros m.
  assert (length (collectAdds ext (et s) m)
          = size (filter (λ entry : ID * Address, parses ext entry.2) m))
    as Hadds.
  { rewrite collectAdds_omap.
    apply (length_omap_entries
             (λ address, okValue (translateAdd ext (et s) address))).
    intros address. apply okValue_translateAdd. }
  assert (length (collectRemoves ext m)
          = size (filter (λ entry : ID * Address, parses ext entry.2) m))
    as Hrems.
  { rewrite collectRemoves_omap.
    apply (length_omap_entries (λ address, okValue (toAddr ext address))).
    intros address. apply okValue_toAddr. }
  split; [done|]. split; [done|].
  intros Hnone.
  assert (filter (λ entry : ID * Address, parses ext entry.2) m = ∅)
    as Hempty by by apply map_empty_filter.
  rewrite Hempty, map_size_empty in Hadds, Hrems.
  apply nil_length_inv in Hadds, Hrems.
  unfold sendClientAdd, sendClientRemove. fold m. simpl.
  by rewrite Hadds, Hrems.
Qed.

Lemma batch_sizes_witness :
  map_Forall (λ _ address, ¬ parses sampleExternals address)
    ({[ web2 := malformed ]} : gmap ID Address)
  ∧ stream
      (et (sendClientAdd sampleExternals (mkAddressSet 2 ∅ [])
             (mkState [∅; ∅; {[ web2 := malformed ]}] (et clientInZoneA))))
    = stream (et clientInZoneA) ++ [Update_Add [] ∅]
  ∧ stream
      (et (sendClientRemove sampleExternals (mkAddressSet 2 ∅ [])
             (mkState [∅; ∅; {[ web2 := malformed ]}] (et clientInZoneA))))
    = stream (et clientInZoneA) ++ [Update_Remove []].
Proof.
  assert (map_Forall (λ _ address, ¬ parses sampleExternals address)
            ({[ web2 := malformed ]} : gmap ID Address)) as Hnone.
  { apply map_Forall_singleton. compute_done. }
  split; [exact Hnone|].
  exact (proj2 (proj2
           (batch_sizes sampleExternals (mkAddressSet 2 ∅ [])
              (mkState [∅; ∅; {[ web2 := malformed ]}] (et clientInZoneA))))
           Hnone).
Defined.

(** ** After NoEndpoints *)

Lemma pending_empty_snapshot (view : gmap ID Address) :
  pendingAdd view ∅ = view ∧ pendingRemove view ∅ = ∅.
Proof.
  unfold pendingAdd, pendingRemove. split.
  - apply map_filter_id. intros id address _. apply lookup_empty.
  - apply map_filter_empty.
Qed.

Lemma snapshotRead_NoEndpoints (svcExists : bool) (s : TranslatorState)
    (available : gmap ID Address) :
  snapshotRead (NoEndpoints svcExists s) available = ∅.
Proof.
  unfold snapshotRead. rewrite decide_False.
  - apply addrs_NoEndpoints.
  - unfold NoEndpoints. simpl. rewrite length_app. simpl. lia.
Qed.

Lemma updateMessages_config (ext : Externals) (e e' : endpointTranslator)
    (labels : gmap string string) (toAdd toRemove : gmap ID Address) :
  config e = config e' →
  updateMessages ext e labels toAdd toRemove
  = updateMessages ext e' labels toAdd toRemove.
Proof.
  intros Hcfg. unfold updateMessages.
  by rewrite (collectAdds_config ext e e').
Qed.

(** X14.  An Add that follows NoEndpoints is answered from the incoming set
    alone: after the NoEndpoints message comes one add message with the
    filtered view of the incoming set, when that view is not empty, and no
    remove message, whatever the translator held before.  A Remove that
    follows NoEndpoints sends nothing. *)
Theorem after_no_endpoints (ext : Externals) (s : TranslatorState)
    (svcExists : bool) (addresses : gmap ID Address)
    (labels : gmap string string) (pref : list string) :
  (let view :=
     filteredView (nodeTopologyLabels (et s)) pref addresses in
   stream (et (perform ext (CallAdd addresses labels pref)
                 (NoEndpoints svcExists s)))
   = stream (et s)
       ++ Update_NoEndpoints svcExists
          :: (if decide (0 < size view)
              then [Update_Add (collectAdds ext (et s) view) labels]
              else []))
  ∧ stream (et (perform ext (CallRemove addresses labels pref)
                  (NoEndpoints svcExists s)))
    = stream (et s) ++ [Update_NoEndpoints svcExists].
Proof.
  destruct (stream_perform ext (NoEndpoints svcExists s) addresses labels
              pref (wf_NoEndpoints svcExists s)) as [Hadd Hremove].
  cbn zeta in Hadd, Hremove.
  rewrite !snapshotRead_NoEndpoints in Hadd, Hremove.
  rewrite (proj1 (addrs_NoEndpoints svcExists s)) in Hadd, Hremove.
  assert (nodeTopologyLabels (et (NoEndpoints svcExists s))
          = nodeTopologyLabels (et s)) as Hnode by done.
  assert (stream (et (NoEndpoints svcExists s))
          = stream (et s) ++ [Update_NoEndpoints svcExists]) as Hstream
    by done.
  assert (config (et (NoEndpoints svcExists s)) = config (et s)) as Hcfg
    by done.
  rewrite Hnode, Hstream in Hadd, Hremove.
  rewrite (updateMessages_config ext _ (et s)) in Hadd, Hremove by done.
  split; cbn zeta.
  - rewrite Hadd, (right_id_L ∅ (∪)).
    destruct (pending_empty_snapshot
                (filteredView (nodeTopologyLabels (et s)) pref addresses))
      as [-> ->].
    unfold updateMessages. rewrite map_size_empty.
    rewrite (decide_False (P := 0 < 0)) by lia.
    by rewrite (right_id_L [] (++)), <- (assoc_L (++)).
  - rewrite Hremove.
    assert (pruned addresses ∅ = ∅) as -> by apply map_filter_empty.
    rewrite filteredView_empty.
    destruct (pending_empty_snapshot ∅) as [-> ->].
    unfold updateMessages. rewrite map_size_empty.
    rewrite !(decide_False (P := 0 < 0)) by lia.
    by rewrite !(right_id_L [] (++)).
Qed.

(** ** Endpoints with a pod *)

(** X15.  For an endpoint with a pod the identity string and the authority
    override of the endpoint play no part: the translation is the same
    whatever they are, a weighted address never carries an authority
    override, and its metric labels are the pod labels of the owner. *)
Theorem pod_endpoint_ignores_overrides (ext : Externals)
    (e : endpointTranslator) (address : Address) (pod : Pod)
    (identity override : string) :
  AddrPod address = Some pod →
  translateAdd ext e (withOverrides identity override address)
  = translateAdd ext e address
  ∧ (∀ wa : WeightedAddr,
       translateAdd ext e address = Ok wa →
       WaAuthorityOverride wa = None
       ∧ MetricLabels wa
         = k8s_GetPodLabels ext (OwnerKind address) (OwnerName address) pod).
Proof.
  intros Hpod. unfold translateAdd, withOverrides. simpl. rewrite Hpod.
  split; [done|].
  unfold toWeightedAddr.
  destruct (k8s_GetServiceAccountAndNS ext pod) as [sa ns].
  destruct (toAddr ext address) as [tcpAddr|err]; [|done].
  by intros wa [= <-].
Qed.

Lemma pod_endpoint_ignores_overrides_witness :
  AddrPod meshed = Some meshedPod
  ∧ translateAdd sampleExternals (et clientInZoneA)
      (withOverrides "spoofed.identity" "other.authority:80" meshed)
    = translateAdd sampleExternals (et clientInZoneA) meshed.
Proof.
  split; [reflexivity|].
  exact (proj1 (pod_endpoint_ignores_overrides sampleExternals
                  (et clientInZoneA) meshed meshedPod "spoofed.identity"
                  "other.authority:80" eq_refl)).
Defined.

(** ** The filter applied to its own result *)

Lemma tierMatches_subseteq (node : gmap string string)
    (avail : gmap ID Address) (pref : string) :
  tierMatches node avail pref ⊆ avail.
Proof.
  unfold tierMatches. destruct (node !! pref).
  - apply map_filter_subseteq.
  - apply map_empty_subseteq.
Qed.

Lemma tierMatches_mono (node : gmap string string)
    (sub avail : gmap ID Address) (pref : string) :
  sub ⊆ avail → tierMatches node sub pref ⊆ tierMatches node avail pref.
Proof.
  intros Hsub. unfold tierMatches. destruct (node !! pref); [|done].
  by apply map_filter_subseteq_mono.
Qed.

Lemma tierMatches_idemp (node : gmap string string)
    (avail : gmap ID Address) (pref : string) :
  tierMatches node (tierMatches node avail pref) pref
  = tierMatches node avail pref.
Proof.
  unfold tierMatches. destruct (node !! pref) as [srcLocality|]; [|done].
  apply map_filter_id. intros id address Hid.
  by apply map_lookup_filter_Some in Hid as [_ Hmatch].
Qed.

Lemma filterLoop_fixed (node : gmap string string) (avail : gmap ID Address)
    (prefs : list string) (view : gmap ID Address) :
  filterLoop node avail prefs ∅ = ExitFiltered view →
  view ⊆ avail ∧ filterLoop node view prefs ∅ = ExitFiltered view.
Proof.
  induction prefs as [|p prefs IH]; [done|].
  rewrite !filterLoop_cons.
  destruct (decide (p = "*")) as [->|Hp]; [done|].
  destruct (decide (tierMatches node avail p = ∅)) as [Hnone|Hsome].
  - intros Hexit. destruct (IH Hexit) as [Hsub Hfixed]. split; [done|].
    rewrite decide_True; [done|].
    apply map_empty. intros id.
    destruct (tierMatches node view p !! id) as [address|] eqn:Hid; [|done].
    apply (lookup_weaken _ (tierMatches node avail p)) in Hid.
    + by rewrite Hnone in Hid.
    + by apply tierMatches_mono.
  - intros [= <-]. split; [apply tierMatches_subseteq|].
    rewrite tierMatches_idemp. by rewrite decide_False.
Qed.

Lemma filteredView_idemp (node : gmap string string) (prefs : list string)
    (avail : gmap ID Address) :
  filteredView node prefs (filteredView node prefs avail)
  = filteredView node prefs avail.
Proof.
  destruct prefs as [|p prefs]; [done|].
  remember (filteredView node (p :: prefs) avail) as selected eqn:Hsel.
  unfold filteredView in Hsel.
  destruct (filterLoop node avail (p :: prefs) ∅) as [|view|] eqn:Hexit;
    subst selected.
  - unfold filteredView. by rewrite Hexit.
  - apply filterLoop_fixed in Hexit as [_ Hfixed].
    unfold filteredView. by rewrite Hfixed.
  - apply filteredView_empty.
Qed.

(** X16.  The filter is idempotent: applied to what it has selected, with
    the same preference and the same node topology, it selects all of it
    again.  So in every reachable state the snapshot is a fixed point of
    the filter under the preference and the node topology of the state. *)
Theorem filter_is_idempotent (ext : Externals) (s : TranslatorState) :
  reachable ext s →
  (∀ avail : gmap ID Address,
     let selected :=
       filteredView (nodeTopologyLabels (et s))
         (TopologicalPref (availableEndpoints (et s))) avail in
     filteredView (nodeTopologyLabels (et s))
       (TopologicalPref (availableEndpoints (et s))) selected
     = selected)
  ∧ filteredView (nodeTopologyLabels (et s))
      (TopologicalPref (availableEndpoints (et s))) (snapshotAddrs s)
    = snapshotAddrs s.
Proof.
  intros Hreach. split.
  - intros avail. apply filteredView_idemp.
  - rewrite (reachable_converged ext s Hreach), filteredAddrs_view.
    apply filteredView_idemp.
Qed.

Lemma filter_is_idempotent_witness :
  reachable sampleExternals zonePreferred
  ∧ filteredView (nodeTopologyLabels (et zonePreferred))
      (TopologicalPref (availableEndpoints (et zonePreferred)))
      (snapshotAddrs zonePreferred)
    = snapshotAddrs zonePreferred.
Proof.
  assert (reachable sampleExternals zonePreferred) as Hreach.
  { unfold reachable, zonePreferred, clientInZoneA.
    by eexists _, _, _, _, _. }
  split; [exact Hreach|].
  exact (proj2 (filter_is_idempotent sampleExternals zonePreferred Hreach)).
Defined.

(** ** An Add taken back *)

Lemma pruned_union (incoming available : gmap ID Address) :
  pruned incoming (incoming ∪ available) = pruned incoming available.
Proof.
  unfold pruned. apply map_eq. intros id.
  destruct (incoming !! id) as [address|] eqn:Hin.
  - rewrite !map_lookup_filter_None_2; [done| |].
    + right. intros other _. simpl. by rewrite Hin.
    + right. intros other _. simpl. by rewrite Hin.
  - destruct (available !! id) as [address|] eqn:Hav.
    + rewrite !(map_lookup_filter_Some_2 _ _ id address); try done.
      by rewrite lookup_union_r.
    + rewrite !map_lookup_filter_None_2; [done| |].
      * by left.
      * left. by rewrite lookup_union_r.
Qed.

(** X17.  From a reachable state, an Add followed by a Remove of the same
    ids leaves in the available endpoints the entries there were before
    whose id is not among them: an entry the Add has replaced is not put
    back.  When none of the ids was known before, the available endpoints
    are again what they were. *)
Theorem add_then_remove (ext : Externals) (s : TranslatorState)
    (addresses : gmap ID Address) (labels labels' : gmap string string)
    (pref pref' : list string) :
  reachable ext s →
  availableAddrs
    (perform ext (CallRemove addresses labels' pref')
       (perform ext (CallAdd addresses labels pref) s))
  = pruned addresses (availableAddrs s)
  ∧ (dom addresses ## dom (availableAddrs s) →
     availableAddrs
       (perform ext (CallRemove addresses labels' pref')
          (perform ext (CallAdd addresses labels pref) s))
     = availableAddrs s).
Proof.
  intros Hwf%reachable_wf.
  assert (availableAddrs
            (perform ext (CallRemove addresses labels' pref')
               (perform ext (CallAdd addresses labels pref) s))
          = pruned addresses (availableAddrs s)) as Hpruned.
  { pose proof (wf_perform ext (CallAdd addresses labels pref) s Hwf)
      as Hwf'.
    rewrite (proj1 (proj2 (available_perform ext _ addresses labels' pref'
                             Hwf'))).
    rewrite (proj1 (proj1 (available_perform ext s addresses labels pref
                             Hwf))).
    apply pruned_union. }
  split; [done|].
  intros Hdisj. rewrite Hpruned. by apply pruned_disjoint.
Qed.

Lemma add_then_remove_witness :
  reachable sampleExternals zonePreferred
  ∧ availableAddrs
      (perform sampleExternals
         (CallRemove {[ web1 := inZoneB ]} ∅ [])
         (perform sampleExternals
            (CallAdd {[ web1 := inZoneB ]} ∅ []) zonePreferred))
    = {[ web2 := inZoneB ]}.
Proof.
  assert (reachable sampleExternals zonePreferred) as Hreach.
  { unfold reachable, zonePreferred, clientInZoneA.
    by eexists _, _, _, _, _. }
  split; [exact Hreach|].
  rewrite (proj1 (add_then_remove sampleExternals zonePreferred
                    {[ web1 := inZoneB ]} ∅ ∅ [] [] Hreach)).
  compute_done.
Defined.
